(** * quizzit: the answer matcher and the trivia round of [src/main.py]

    A shallow embedding of [AnswerMatcher] and of the state-carrying part of
    [TriviaBot], followed by the properties of the specification that can be
    stated over it.

    Conventions of the embedding.
    - A Python [str] is the list of its code points ([list N]).
    - A Python [int] is a [Z]; a Python [float] is the rational it denotes
      ([Q]).  The floats of the program are response times, the literals
      0.3 .. 1.0 and quotients of two lengths; every comparison the program
      makes between them has the same outcome over the rationals as long as
      the lengths stay below 2^26.
    - The functions of the Python standard library that consult the Unicode
      database ([str.lower], [str.isspace], [html.unescape],
      [unicodedata.normalize], [unicodedata.combining], the classes [\w] and
      [\s] of [re]) and [difflib.SequenceMatcher.ratio] are an interface,
      [PyLib]; the program is embedded over any implementation of it.
      [Ascii.lib] is an implementation that computes, for evaluating the
      program on texts of ASCII code points without [&]; [Entities.lib]
      is one that also decodes decimal character references and knows
      one letter that is not ASCII.
    - The calls to Reddit and Supabase are taken to succeed; what the bot
      posts as the winner's celebration is recorded in an outbox. Its other
      replies, those that it posts at random to wrong answers and the
      notice that time is up, change no field and are not recorded. *)

From Stdlib Require Import ZArith QArith List String Ascii Lia Sorted Permutation.
From stdpp Require Import base gmap list strings.
Import ListNotations.

Local Open Scope N_scope.

(** ** Python strings *)

Abbreviation str := (list N).

(** The text of an ASCII literal of the source. *)
Definition py (s : string) : str := map N_of_ascii (list_ascii_of_string s).

Definition str_eqb (a b : str) : bool := bool_decide (a = b).

Fixpoint drop_while (p : N -> bool) (s : str) : str :=
  match s with
  | [] => []
  | c :: s' => if p c then drop_while p s' else s
  end.

(** [s.strip(chars)], with the set of stripped characters as a predicate. *)
Definition strip_by (p : N -> bool) (s : str) : str :=
  rev (drop_while p (rev (drop_while p s))).

(** [s.replace(old, new)] for a one-character [old]. *)
Definition replace_char (old : N) (new : str) (s : str) : str :=
  flat_map (fun c => if c =? old then new else [c]) s.

(** [' '.join(words)] *)
Fixpoint join_sp (words : list str) : str :=
  match words with
  | [] => []
  | [w] => w
  | w :: ws => w ++ 32 :: join_sp ws
  end.

(** [p in s] for strings: [p] occurs in [s] as a contiguous block. *)
Fixpoint starts_with (p s : str) : bool :=
  match p, s with
  | [], _ => true
  | _ :: _, [] => false
  | c :: p', d :: s' => (c =? d) && starts_with p' s'
  end.

Fixpoint str_in (p s : str) : bool :=
  starts_with p s ||
  match s with
  | [] => false
  | _ :: s' => str_in p s'
  end.

(** Lookup in a [dict] literal with string keys. *)
Fixpoint dict_get {V} (d : list (str * V)) (k : str) : option V :=
  match d with
  | [] => None
  | (k', v) :: d' => if str_eqb k k' then Some v else dict_get d' k
  end.

(** ** The standard library, as an interface *)

Class PyLib := {
  (** [str.lower] *)
  str_lower : str -> str;
  (** [html.unescape] *)
  html_unescape : str -> str;
  (** [unicodedata.normalize('NFKD', _)] *)
  nfkd : str -> str;
  (** [unicodedata.combining] *)
  combining : N -> N;
  (** [str.isalnum] on one character; [\w] of [re] is this or [_] *)
  isalnum : N -> bool;
  (** [str.isspace] on one character; also [\s] of [re], and what
      [str.split()] and [str.strip()] take for white space *)
  isspace : N -> bool;
  (** [difflib.SequenceMatcher(None, a, b).ratio()] *)
  seq_ratio : str -> str -> Q
}.

(** ** class AnswerMatcher *)

Module AnswerMatcher.

Definition abbreviations : list (str * str) := Eval vm_compute in
  [ (py "usa", py "united states of america");
    (py "us", py "united states");
    (py "uk", py "united kingdom");
    (py "ussr", py "soviet union");
    (py "wwi", py "world war 1");
    (py "ww1", py "world war 1");
    (py "wwii", py "world war 2");
    (py "ww2", py "world war 2");
    (py "nyc", py "new york city");
    (py "la", py "los angeles");
    (py "sf", py "san francisco");
    (py "dc", py "washington dc");
    (py "ca", py "california");
    (py "ny", py "new york");
    (py "jr", py "junior");
    (py "sr", py "senior");
    (py "dr", py "doctor");
    (py "mr", py "mister");
    (py "mrs", py "missus");
    (py "ms", py "miss");
    (py "prof", py "professor");
    (py "st", py "saint");
    (py "mt", py "mount");
    (py "ft", py "fort");
    (py "co", py "company");
    (py "corp", py "corporation");
    (py "inc", py "incorporated");
    (py "ltd", py "limited");
    (py "etc", py "et cetera");
    (py "vs", py "versus");
    (py "aka", py "also known as") ].

Definition roman_numerals : list (str * str) := Eval vm_compute in
  [ (py "i", py "1"); (py "ii", py "2"); (py "iii", py "3");
    (py "iv", py "4"); (py "v", py "5"); (py "vi", py "6");
    (py "vii", py "7"); (py "viii", py "8"); (py "ix", py "9");
    (py "x", py "10"); (py "xi", py "11"); (py "xii", py "12");
    (py "xiii", py "13"); (py "xiv", py "14"); (py "xv", py "15");
    (py "xvi", py "16"); (py "xvii", py "17"); (py "xviii", py "18");
    (py "xix", py "19"); (py "xx", py "20") ].

Definition stop_words : list str := Eval vm_compute in
  map py
  [ "the"; "a"; "an"; "and"; "or"; "but"; "in"; "on"; "at"; "to"; "for";
    "of"; "with"; "by"; "as"; "is"; "was"; "are"; "were"; "be"; "been";
    "being"; "have"; "has"; "had"; "do"; "does"; "did"; "will"; "would";
    "could"; "should"; "may"; "might"; "must"; "can"; "shall" ]%string.

(** The [replacements] of [normalize_text], in the order of the literal:
    & + % $ euro pound yen @ # degree 1/2 1/4 3/4 superscript-2 superscript-3. *)
Definition replacements : list (N * str) := Eval vm_compute in
  [ (38, py "and"); (43, py "plus"); (37, py "percent"); (36, py "dollar");
    (8364, py "euro"); (163, py "pound"); (165, py "yen"); (64, py "at");
    (35, py "number"); (176, py "degree"); (189, py "0.5"); (188, py "0.25");
    (190, py "0.75"); (178, py "2"); (179, py "3") ].

(** The characters that [word.strip] is given in [normalize_text] and in
    [extract_key_words]: . , ! ? ; : double-quote ( ) [ ] { } *)
Definition strip_chars : list N :=
  [46; 44; 33; 63; 59; 58; 34; 40; 41; 91; 93; 123; 125].

Definition is_strip_char (c : N) : bool := existsb (N.eqb c) strip_chars.

Definition clean (word : str) : str := strip_by is_strip_char word.

Section WithLib.
Context {L : PyLib}.

(** [s.strip()] *)
Definition strip (s : str) : str := strip_by isspace s.

(** [s.split()]: the maximal runs of characters that are not white space.
    [cur] is the run being read, last character first. *)
Fixpoint split_from (cur : str) (s : str) : list str :=
  match s with
  | [] => match cur with [] => [] | _ => [rev cur] end
  | c :: s' =>
      if isspace c then
        match cur with
        | [] => split_from [] s'
        | _ => rev cur :: split_from [] s'
        end
      else split_from (c :: cur) s'
  end.

Definition split (s : str) : list str := split_from [] s.

(** [re.sub(r'[^\w\s\.\-\']', ' ', text)] *)
Definition kept (c : N) : bool :=
  isalnum c || (c =? 95) || isspace c || (c =? 46) || (c =? 45) || (c =? 39).

Definition blank_punctuation (text : str) : str :=
  map (fun c => if kept c then c else 32) text.

(** [re.sub(r'\s+', ' ', text)]; [in_run] says that the character before
    was white space. *)
Fixpoint collapse_from (in_run : bool) (s : str) : str :=
  match s with
  | [] => []
  | c :: s' =>
      if isspace c then
        if in_run then collapse_from true s' else 32 :: collapse_from true s'
      else c :: collapse_from false s'
  end.

Definition collapse_spaces (s : str) : str := collapse_from false s.

(** The body of the loop over [words] of [normalize_text]. *)
Definition normalize_word (word : str) : str :=
  let clean_word := clean word in
  match dict_get abbreviations clean_word with
  | Some full => full
  | None =>
      match dict_get roman_numerals clean_word with
      | Some digits => digits
      | None => word
      end
  end.

Definition normalize_text (text : str) : str :=
  match text with
  | [] => []
  | _ =>
      let text := strip (str_lower text) in
      let text := html_unescape text in
      let text := nfkd text in
      let text := List.filter (fun c => bool_decide (combining c = 0)) text in
      let text :=
        fold_left (fun t sr => replace_char (fst sr) (snd sr) t)
                  replacements text in
      let text := blank_punctuation text in
      let words := split text in
      let normalized_words := map normalize_word words in
      let text := join_sp normalized_words in
      strip (collapse_spaces text)
  end.

(** The loop of [extract_key_words] keeps a word when it is longer than one
    character and no stop word. *)
Definition is_key_word (word : str) : bool :=
  let clean_word := clean word in
  (1 <? length clean_word)%nat && negb (bool_decide (clean_word ∈ stop_words)).

Definition extract_key_words (text : str) : gset str :=
  let normalized := normalize_text text in
  let words := split normalized in
  list_to_set (map clean (List.filter (fun w => is_key_word w) words)).

Definition similarity_score (str1 str2 : str) : Q := seq_ratio str1 str2.

Definition check_name_variations (user_answer correct_answer : str) : bool :=
  let user_words := split (normalize_text user_answer) in
  let correct_words := split (normalize_text correct_answer) in
  if (2 <=? length user_words)%nat && (2 <=? length correct_words)%nat then
    let user_first := hd [] user_words in
    let user_last := List.last user_words [] in
    let correct_first := hd [] correct_words in
    let correct_last := List.last correct_words [] in
    negb (Qle_bool (similarity_score user_first correct_first) 0.8) &&
    negb (Qle_bool (similarity_score user_last correct_last) 0.8)
  else false.

Inductive match_type :=
  | empty | exact | contains | keywords | fuzzy | essential | initials
  | name_variation | no_match.

(** [len(x) / len(y)] for a non-empty [y]. *)
Definition quotient (n m : nat) : Q := Z.of_nat n # Pos.of_nat m.

(** [remove_dots_and_spaces], local to [is_match]:
    [re.sub(r'[\s\.]', '', text.lower())]. *)
Definition remove_dots_and_spaces (text : str) : str :=
  List.filter (fun c => negb (isspace c || (c =? 46))) (str_lower text).

Definition is_match (user_answer correct_answer : str) (threshold : Q)
  : bool * Q * match_type :=
  match user_answer, correct_answer with
  | [], _ | _, [] => (false, 0%Q, empty)
  | _, _ =>
    let user_norm := normalize_text user_answer in
    let correct_norm := normalize_text correct_answer in
    if str_eqb user_norm correct_norm then (true, 1%Q, exact)
    else if str_in user_norm correct_norm || str_in correct_norm user_norm
    then (true, 0.95%Q, contains)
    else
      let user_words := extract_key_words user_answer in
      let correct_words := extract_key_words correct_answer in
      let intersection := user_words ∩ correct_words in
      let union := user_words ∪ correct_words in
      let word_similarity := quotient (size intersection) (size union) in
      if negb (bool_decide (user_words = ∅)) &&
         negb (bool_decide (correct_words = ∅)) &&
         negb (bool_decide (union = ∅)) &&
         Qle_bool 0.7 word_similarity
      then (true, word_similarity, keywords)
      else
        let similarity := similarity_score user_norm correct_norm in
        if Qle_bool threshold similarity then (true, similarity, fuzzy)
        else
          let essential_words :=
            List.filter (fun w : str => (3 <? length w)%nat) (elements correct_words) in
          let matched_essential :=
            length (List.filter (fun w => bool_decide (w ∈ user_words)) essential_words) in
          let essential_ratio :=
            quotient matched_essential (length essential_words) in
          if (1 <? size correct_words)%nat &&
             negb (bool_decide (essential_words = [])) &&
             Qle_bool 0.8 essential_ratio
          then (true, essential_ratio, essential)
          else if str_eqb (remove_dots_and_spaces user_answer)
                          (remove_dots_and_spaces correct_answer)
          then (true, 0.9%Q, initials)
          else if check_name_variations user_answer correct_answer
          then (true, 0.85%Q, name_variation)
          else (false, similarity, no_match)
  end.

End WithLib.

End AnswerMatcher.

(** ** An implementation of the interface that computes *)

(** [difflib.SequenceMatcher(None, a, b)], that is, without a junk predicate
    and with [autojunk] on, after [Lib/difflib.py]. *)
Module Difflib.
Section Matcher.
Variables a b : str.

(** With [autojunk], in a [b] of 200 elements or more, the elements that
    occur more than [len(b) // 100 + 1] times are left out of [b2j]. *)
Definition popular (c : N) : bool :=
  (200 <=? length b)%nat &&
  (length b / 100 + 1 <? count_occ N.eq_dec b c)%nat.

(** [b2j.get(c, [])]: the positions of [c] in [b], increasing. *)
Definition b2j (c : N) : list nat :=
  if popular c then []
  else List.filter (fun j => nth j b 0 =? c) (seq 0 (length b)).

Definition j2len_get (j2len : list (nat * nat)) (j : nat) : nat :=
  match List.find (fun e => (fst e =? j)%nat) j2len with
  | Some e => snd e
  | None => 0%nat
  end.

(** The loop over [j] of [find_longest_match], for one [i]. *)
Definition scan_row (blo bhi i : nat) (j2len : list (nat * nat))
    (best : nat * nat * nat) : list (nat * nat) * (nat * nat * nat) :=
  fold_left
    (fun acc j =>
       let '(newj2len, (besti, bestj, bestsize)) := acc in
       let k := S (match j with O => 0 | S j' => j2len_get j2len j' end) in
       ((j, k) :: newj2len,
        if (bestsize <? k)%nat then (i + 1 - k, j + 1 - k, k)%nat
        else (besti, bestj, bestsize)))
    (List.filter (fun j => (blo <=? j)%nat && (j <? bhi)%nat) (b2j (nth i a 0)))
    ([], best).

(** The two loops that extend the block over equal elements, which may be
    popular ones; no element is junk. *)
Fixpoint extend_back (fuel alo blo : nat) (best : nat * nat * nat)
  : nat * nat * nat :=
  match fuel with
  | O => best
  | S fuel' =>
      let '(besti, bestj, bestsize) := best in
      if (alo <? besti)%nat && (blo <? bestj)%nat &&
         (nth (besti - 1) a 0 =? nth (bestj - 1) b 0)
      then extend_back fuel' alo blo (besti - 1, bestj - 1, S bestsize)%nat
      else best
  end.

Fixpoint extend_forth (fuel ahi bhi : nat) (best : nat * nat * nat)
  : nat * nat * nat :=
  match fuel with
  | O => best
  | S fuel' =>
      let '(besti, bestj, bestsize) := best in
      if (besti + bestsize <? ahi)%nat && (bestj + bestsize <? bhi)%nat &&
         (nth (besti + bestsize) a 0 =? nth (bestj + bestsize) b 0)
      then extend_forth fuel' ahi bhi (besti, bestj, S bestsize)
      else best
  end.

Definition find_longest_match (alo ahi blo bhi : nat) : nat * nat * nat :=
  let rows :=
    fold_left (fun acc i => scan_row blo bhi i (fst acc) (snd acc))
              (seq alo (ahi - alo)) ([], (alo, blo, 0%nat)) in
  extend_forth (length a) ahi bhi (extend_back (length a) alo blo (snd rows)).

(** The sum of the sizes of [get_matching_blocks()]. Every call below the
    first works on a strictly shorter stretch of [a]. *)
Fixpoint matches (fuel alo ahi blo bhi : nat) : nat :=
  match fuel with
  | O => 0
  | S fuel' =>
      let '(i, j, k) := find_longest_match alo ahi blo bhi in
      if (k =? 0)%nat then 0
      else
        (k
         + (if (alo <? i)%nat && (blo <? j)%nat
            then matches fuel' alo i blo j else 0)
         + (if (i + k <? ahi)%nat && (j + k <? bhi)%nat
            then matches fuel' (i + k) ahi (j + k) bhi else 0))%nat
  end.

Definition ratio : Q :=
  let length := (length a + length b)%nat in
  match length with
  | O => 1%Q
  | _ =>
      (2 * Z.of_nat (matches (S (List.length a)) 0 (List.length a) 0 (List.length b)))%Z
      # Pos.of_nat length
  end.

End Matcher.
End Difflib.

(** The interface on ASCII. Each function is the one of CPython on texts
    whose code points are below 128 and among which there is no [&]. *)
Module Ascii.

Definition lower (s : str) : str :=
  map (fun c => if (65 <=? c) && (c <=? 90) then c + 32 else c) s.

Definition alnum (c : N) : bool :=
  ((48 <=? c) && (c <=? 57)) || ((65 <=? c) && (c <=? 90)) ||
  ((97 <=? c) && (c <=? 122)).

(** Tab, line feed, vertical tab, form feed, carriage return, the four
    separators 28..31 and the space. *)
Definition space (c : N) : bool :=
  ((9 <=? c) && (c <=? 13)) || ((28 <=? c) && (c <=? 32)).

#[export] Instance lib : PyLib := {|
  str_lower := lower;
  html_unescape := fun s => s;
  nfkd := fun s => s;
  combining := fun _ => 0;
  isalnum := alnum;
  isspace := space;
  seq_ratio := Difflib.ratio
|}.

End Ascii.

(** The interface on ASCII and the sharp s of German (code point 223), with
    character references. The sharp s is a lower-case letter that
    [str.lower] and the decomposition leave alone. [unescape] is
    [html.unescape] on the texts in which every [&] is followed by a space,
    which is no reference, or by [#] and by decimal digits that write a
    number from 32 to 126, the code point of a printable ASCII
    character. *)
Module Entities.

Definition alnum (c : N) : bool := Ascii.alnum c || (c =? 223).

Definition digit (c : N) : bool := (48 <=? c) && (c <=? 57).

(** The number that the digits at the head of [s] write after those read
    before, how many digits were read in all, and what follows them. *)
Fixpoint read_digits (value : N) (count : nat) (s : str) : N * nat * str :=
  match s with
  | [] => (value, count, [])
  | c :: s' =>
      if digit c then read_digits (10 * value + (c - 48)) (S count) s'
      else (value, count, s)
  end.

(** A reference at the head of [s], [&#] and digits and a semicolon that
    may be missing: the character it stands for and the number of
    characters it takes. *)
Definition reference (s : str) : option (N * nat) :=
  match s with
  | a :: h :: s' =>
      if (a =? 38) && (h =? 35) then
        match read_digits 0 0 s' with
        | (n, S k, rest) =>
            if (32 <=? n) && (n <=? 126) then
              match rest with
              | c :: _ => if c =? 59 then Some (n, S (S (S (S k))))
                          else Some (n, S (S (S k)))
              | [] => Some (n, S (S (S k)))
              end
            else None
        | _ => None
        end
      else None
  | _ => None
  end.

(** [skip] is the number of characters still to pass over, those of the
    reference that was just replaced. *)
Fixpoint unescape_from (skip : nat) (s : str) : str :=
  match s with
  | [] => []
  | c :: s' =>
      match skip with
      | S k => unescape_from k s'
      | O =>
          match reference s with
          | Some (n, len) => n :: unescape_from (Nat.pred len) s'
          | None => c :: unescape_from 0 s'
          end
      end
  end.

Definition unescape (s : str) : str := unescape_from 0 s.

Definition lib : PyLib := {|
  str_lower := Ascii.lower;
  html_unescape := unescape;
  nfkd := fun s => s;
  combining := fun _ => 0;
  isalnum := alnum;
  isspace := Ascii.space;
  seq_ratio := Difflib.ratio
|}.

End Entities.

(** ** class TriviaBot *)

Module TriviaBot.
Import AnswerMatcher.

(** [x < y] on floats *)
Definition float_lt (x y : Q) : bool := negb (Qle_bool y x).

(** The dataclass [UserStats]. A [datetime] is the number of seconds since
    some fixed instant. *)
Record UserStats := mkUserStats {
  username : str;
  total_score : Z;
  correct_answers : Z;
  total_questions : Z;
  streak : Z;
  max_streak : Z;
  last_active : option Q;
  daily_score : Z;
  weekly_score : Z;
  monthly_score : Z
}.

(** [UserStats(username=username, last_active=datetime.now())] *)
Definition new_user (name : str) (now : Q) : UserStats :=
  mkUserStats name 0 0 0 0 0 (Some now) 0 0 0.

Definition calculate_points (response_time : Q) : Z :=
  let base_points := 10%Z in
  if float_lt response_time 5 then (base_points + 10)%Z
  else if float_lt response_time 10 then (base_points + 7)%Z
  else if float_lt response_time 20 then (base_points + 5)%Z
  else if float_lt response_time 35 then (base_points + 3)%Z
  else (base_points + 1)%Z.

(** [update_user_stats], on the dictionary [self.user_stats]; [now] is what
    [datetime.now()] returns during the call. [save_user_to_db] changes
    nothing in the bot. *)
Definition update_user_stats (name : str) (correct : bool)
    (response_time now : Q) (user_stats : gmap str UserStats)
  : gmap str UserStats :=
  let user := default (new_user name now) (user_stats !! name) in
  let questions := (total_questions user + 1)%Z in
  let user :=
    if correct then
      let points := calculate_points response_time in
      let streak' := (streak user + 1)%Z in
      mkUserStats (username user)
        (total_score user + points) (correct_answers user + 1) questions
        streak' (Z.max (max_streak user) streak') (Some now)
        (daily_score user + points) (weekly_score user + points)
        (monthly_score user + points)
    else
      mkUserStats (username user)
        (total_score user) (correct_answers user) questions
        0 (max_streak user) (Some now)
        (daily_score user) (weekly_score user) (monthly_score user) in
  <[name := user]> user_stats.

(** An entry of [self.question_answers]. *)
Record Answer := mkAnswer {
  answer_username : str;
  answer : str;
  response_time : Q
}.

(** An entry of [answer_scores] in [get_top_matching_answers]. *)
Record Score := mkScore {
  score_username : str;
  score_answer : str;
  confidence : Q;
  score_match_type : match_type;
  is_correct : bool
}.

(** [answer_scores.sort(key=lambda x: x['confidence'], reverse=True)]:
    [list.sort] is stable, also with [reverse=True], so entries of equal
    confidence stay in the order they had. *)
Fixpoint insert_by_confidence (x : Score) (l : list Score) : list Score :=
  match l with
  | [] => [x]
  | y :: l' =>
      if Qle_bool (confidence y) (confidence x) then x :: l
      else y :: insert_by_confidence x l'
  end.

Definition sort_by_confidence (l : list Score) : list Score :=
  fold_right insert_by_confidence [] l.

(** The loop that fills [top_matches]. *)
Fixpoint collect_top (limit : nat) (scores top_matches : list Score)
  : list Score :=
  match scores with
  | [] => top_matches
  | score_data :: scores' =>
      if (limit <=? length top_matches)%nat then top_matches
      else if float_lt 0.3 (confidence score_data)
      then collect_top limit scores' (top_matches ++ [score_data])
      else collect_top limit scores' top_matches
  end.

(** A comment of the post. [read_at] is not part of the comment: it is what
    [datetime.now()] returns when the loop of [monitor_comments] works on
    it. *)
Record Comment := mkComment {
  comment_id : N;
  author : option str;
  body : str;
  read_at : Q
}.

(** The reply that announces the winner, before it is laid out as text;
    the streak message chosen at random is not part of it. *)
Record Celebration := mkCelebration {
  replied_to : N;
  winner : str;
  your_answer : str;
  correct_answer : str;
  winning_match : match_type * Q;
  points_earned : Z;
  seconds : Q;
  current_streak : Z;
  top_matches : list Score
}.

(** The fields of the bot that the round reads and writes. [current_answer]
    and [question_start_time] are set together with [current_question] and
    read only once it is set. [outbox] lists the celebrations posted. *)
Record Bot := mkBot {
  current_question : option N;
  current_answer : str;
  question_start_time : Q;
  waiting_for_answer : bool;
  user_stats : gmap str UserStats;
  processed_comments : gset N;
  question_answers : list Answer;
  outbox : list Celebration
}.

(** The state after [__init__]. *)
Definition init : Bot := mkBot None [] 0 false ∅ ∅ [] [].

(** [post_question], when the question is fetched and posted: [submission]
    is the new post, [answer] the correct answer fetched with it. *)
Definition post_question (submission : N) (answer : str) (now : Q) (st : Bot)
  : Bot :=
  mkBot (Some submission) answer now true
        (user_stats st) (processed_comments st) [] (outbox st).

Section WithLib.
Context {L : PyLib}.

Definition is_correct_answer (user_answer correct_answer : str)
  : bool * Q * match_type :=
  is_match user_answer correct_answer 0.8.

Definition score_of (correct_answer : str) (answer_data : Answer) : Score :=
  let '(is_match, confidence, match_type) :=
    is_match (answer answer_data) correct_answer 0.8 in
  mkScore (answer_username answer_data) (answer answer_data)
          confidence match_type is_match.

(** [get_top_matching_answers], up to the list [top_matches]; the text
    that the function lays out from it is empty exactly when the list is. *)
Definition get_top_matching_answers (question_answers : list Answer)
    (correct_answer : str) (limit : nat) : list Score :=
  let answer_scores := map (score_of correct_answer) question_answers in
  let answer_scores := sort_by_confidence answer_scores in
  collect_top limit (firstn (limit + 2) answer_scores) [].

(** The name under which a comment is counted. *)
Definition name_of (c : Comment) : str :=
  default (py "Anonymous") (author c).

(** The body of the loop of [monitor_comments], for one comment of the post;
    [me] is the name of the bot's own account. The result is the bot after
    the body, and whether the body ended in [break]. The replies that the
    bot, at random, posts to wrong answers change no field and are not
    recorded. *)
Definition handle_comment (me : str) (comment : Comment) (st : Bot)
  : Bot * bool :=
  if bool_decide (comment_id comment ∈ processed_comments st)
  then (st, false)
  else
    let processed := {[comment_id comment]} ∪ processed_comments st in
    if bool_decide (author comment = Some me) then
      (mkBot (current_question st) (current_answer st)
             (question_start_time st) (waiting_for_answer st)
             (user_stats st) processed (question_answers st) (outbox st),
       false)
    else
      let name := name_of comment in
      let response_time := (read_at comment - question_start_time st)%Q in
      let answers :=
        question_answers st ++ [mkAnswer name (body comment) response_time] in
      let '(correct, confidence, match_type) :=
        is_correct_answer (body comment) (current_answer st) in
      let stats :=
        update_user_stats name correct response_time (read_at comment)
                          (user_stats st) in
      if correct then
        let user := default (new_user name 0) (stats !! name) in
        let celebration :=
          mkCelebration (comment_id comment) name (strip (body comment))
            (current_answer st) (match_type, confidence)
            (calculate_points response_time) response_time (streak user)
            (get_top_matching_answers answers (current_answer st) 3) in
        (mkBot (current_question st) (current_answer st)
               (question_start_time st) false stats processed answers
               (outbox st ++ [celebration]),
         true)
      else
        (mkBot (current_question st) (current_answer st)
               (question_start_time st) (waiting_for_answer st)
               stats processed answers (outbox st),
         false).

(** The loop of [monitor_comments]. *)
Fixpoint process_comments (me : str) (comments : list Comment) (st : Bot)
  : Bot :=
  match comments with
  | [] => st
  | comment :: rest =>
      let '(st', stop) := handle_comment me comment st in
      if stop then st' else process_comments me rest st'
  end.

Definition monitor_comments (me : str) (comments : list Comment) (st : Bot)
  : Bot :=
  match current_question st with
  | None => st
  | Some _ =>
      if negb (waiting_for_answer st) then st
      else process_comments me comments st
  end.

End WithLib.

End TriviaBot.



(** ** class TriviaBot: the statistics, the leaderboard and the main loop *)

Module TriviaLoop.
Import AnswerMatcher TriviaBot.

(** [reset_daily_stats], [reset_weekly_stats] and [reset_monthly_stats], on
    the dictionary [self.user_stats]. *)
Definition reset_daily_stats (user_stats : gmap str UserStats)
  : gmap str UserStats :=
  (fun user =>
     mkUserStats (username user) (total_score user) (correct_answers user)
       (total_questions user) (streak user) (max_streak user)
       (last_active user) 0 (weekly_score user) (monthly_score user))
  <$> user_stats.

Definition reset_weekly_stats (user_stats : gmap str UserStats)
  : gmap str UserStats :=
  (fun user =>
     mkUserStats (username user) (total_score user) (correct_answers user)
       (total_questions user) (streak user) (max_streak user)
       (last_active user) (daily_score user) 0 (monthly_score user))
  <$> user_stats.

Definition reset_monthly_stats (user_stats : gmap str UserStats)
  : gmap str UserStats :=
  (fun user =>
     mkUserStats (username user) (total_score user) (correct_answers user)
       (total_questions user) (streak user) (max_streak user)
       (last_active user) (daily_score user) (weekly_score user) 0)
  <$> user_stats.

(** The key of [get_top_players_text]: [(x.total_score, x.max_streak)],
    compared as Python compares tuples. *)
Definition rank_le (x y : UserStats) : bool :=
  (total_score x <? total_score y)%Z ||
  ((total_score x =? total_score y)%Z && (max_streak x <=? max_streak y)%Z).

(** [sorted(values, key=..., reverse=True)], which is stable. *)
Fixpoint insert_by_rank (x : UserStats) (l : list UserStats)
  : list UserStats :=
  match l with
  | [] => [x]
  | y :: l' => if rank_le y x then x :: l else y :: insert_by_rank x l'
  end.

Definition sort_by_rank (l : list UserStats) : list UserStats :=
  fold_right insert_by_rank [] l.

(** [get_top_players_text], up to the list [sorted_users] that it lays out
    as text. [values] is [self.user_stats.values()], in the order of the
    dictionary, which is the order in which the players were first seen;
    without players the list is empty and the text says so. *)
Definition get_top_players (values : list UserStats) (limit : nat)
  : list UserStats :=
  firstn limit (sort_by_rank values).

(** What the calendar of [datetime] gives for a time: the day
    ([.date()]), the ISO week number ([.isocalendar()[1]]) and the month
    ([.month]). *)
Class Calendar := {
  date_of : Q -> Z;
  week_of : Q -> Z;
  month_of : Q -> Z
}.

(** The variables of [run]: the bot and the three times of the last
    resets. *)
Record Loop := mkLoop {
  bot : Bot;
  last_daily_reset : Z;
  last_weekly_reset : Z;
  last_monthly_reset : Z
}.

(** What one turn of the loop of [run] gets from outside: the time read for
    the resets, the time read for the timeout, the comments of the post,
    the post and correct answer of the next question ([None] when fetching
    or posting it raises, which [post_question] catches), and the time at
    which it is posted. *)
Record Tick := mkTick {
  current_date : Q;
  checked_at : Q;
  comments : list Comment;
  posted : option (N * str);
  posted_at : Q
}.

Definition with_user_stats (stats : gmap str UserStats) (st : Bot) : Bot :=
  mkBot (current_question st) (current_answer st) (question_start_time st)
        (waiting_for_answer st) stats (processed_comments st)
        (question_answers st) (outbox st).

(** [self.waiting_for_answer = False] *)
Definition stop_waiting (st : Bot) : Bot :=
  mkBot (current_question st) (current_answer st) (question_start_time st)
        false (user_stats st) (processed_comments st)
        (question_answers st) (outbox st).

(** [post_question] with its [try]: when posting raises, nothing is
    assigned. *)
Definition try_post_question (posted : option (N * str)) (now : Q) (st : Bot)
  : Bot :=
  match posted with
  | Some (submission, answer) => post_question submission answer now st
  | None => st
  end.

(** [handle_timeout]: on both paths of its [try] the bot stops waiting and
    the next question is posted; the notice that time is up is a reply
    that changes no field and is not recorded. The statements that follow
    the [try] inside the function (lines 751 to 754, the body of
    [reset_monthly_stats] once more) then set the monthly score of every
    player to 0. *)
Definition handle_timeout (posted : option (N * str)) (now : Q) (st : Bot)
  : Bot :=
  let st := try_post_question posted now (stop_waiting st) in
  with_user_stats (reset_monthly_stats (user_stats st)) st.

Section WithLib.
Context {L : PyLib} {C : Calendar}.

(** The three resets at the head of the loop. *)
Definition resets (t : Tick) (s : Loop) : Loop :=
  let s :=
    if (last_daily_reset s <? date_of (current_date t))%Z
    then mkLoop (with_user_stats (reset_daily_stats (user_stats (bot s)))
                                 (bot s))
                (date_of (current_date t))
                (last_weekly_reset s) (last_monthly_reset s)
    else s in
  let s :=
    if negb (week_of (current_date t) =? last_weekly_reset s)%Z
    then mkLoop (with_user_stats (reset_weekly_stats (user_stats (bot s)))
                                 (bot s))
                (last_daily_reset s)
                (week_of (current_date t)) (last_monthly_reset s)
    else s in
  if negb (month_of (current_date t) =? last_monthly_reset s)%Z
  then mkLoop (with_user_stats (reset_monthly_stats (user_stats (bot s)))
                               (bot s))
              (last_daily_reset s) (last_weekly_reset s)
              (month_of (current_date t))
  else s.

(** The part of the loop that plays the round. *)
Definition play (me : str) (t : Tick) (st : Bot) : Bot :=
  match current_question st with
  | Some _ =>
      if waiting_for_answer st then
        let time_elapsed := (checked_at t - question_start_time st)%Q in
        if Qle_bool 45 time_elapsed
        then handle_timeout (posted t) (posted_at t) st
        else
          let st := monitor_comments me (comments t) st in
          if negb (waiting_for_answer st)
          then try_post_question (posted t) (posted_at t) st
          else st
      else st
  | None => st
  end.

(** One turn of the loop of [run]. *)
Definition turn (me : str) (s : Loop) (t : Tick) : Loop :=
  let s := resets t s in
  mkLoop (play me t (bot s))
         (last_daily_reset s) (last_weekly_reset s) (last_monthly_reset s).

(** [run] up to its loop: the times of the resets are taken from the clock
    and the first question is posted. *)
Definition run_start (now_day now_week now_month : Q)
    (posted : option (N * str)) (posted_at : Q) (st : Bot) : Loop :=
  mkLoop (try_post_question posted posted_at st)
         (date_of now_day) (week_of now_week) (month_of now_month).

(** The loop of [run] over its first turns. *)
Definition run_turns (me : str) (ticks : list Tick) (s : Loop) : Loop :=
  fold_left (turn me) ticks s.

End WithLib.

End TriviaLoop.
(** * Vocabulary of the properties *)

Module Rounds.
Import AnswerMatcher TriviaBot.

(** One call of [update_user_stats]: who, whether the answer was correct,
    the response time and the time of the call. *)
Record Update := mkUpdate {
  who : str;
  won : bool;
  after : Q;
  at_time : Q
}.

Definition apply_update (stats : gmap str UserStats) (u : Update)
  : gmap str UserStats :=
  update_user_stats (who u) (won u) (after u) (at_time u) stats.

(** The statistics after a sequence of calls, the first call first. *)
Definition apply_updates (updates : list Update) (stats : gmap str UserStats)
  : gmap str UserStats :=
  fold_left apply_update updates stats.

(** The record a call works on: the stored one, or the one it creates. *)
Definition stats_before (name : str) (now : Q) (stats : gmap str UserStats)
  : UserStats :=
  default (new_user name now) (stats !! name).

(** The streak of every player on record is between 0 and the player's
    longest streak. *)
Definition streaks_bounded (stats : gmap str UserStats) : Prop :=
  forall name user, stats !! name = Some user ->
    (0 <= streak user <= max_streak user)%Z.

Section WithLib.
Context {L : PyLib}.

(** The round is open: a question is posted and not yet answered. *)
Definition round_open (st : Bot) : Prop :=
  current_question st <> None /\ waiting_for_answer st = true.

(** Whether [is_correct_answer] takes the body of the comment for the
    answer of the round. *)
Definition accepted (st : Bot) (c : Comment) : bool :=
  fst (fst (is_correct_answer (body c) (current_answer st))).

(** A comment that cannot win: one handled before, one of the bot itself,
    or one whose answer is not accepted. *)
Definition passed_over (me : str) (st : Bot) (c : Comment) : Prop :=
  (comment_id c ∈ processed_comments st) \/ (author c = Some me) \/
  (accepted st c = false).

(** A comment that is read as a submission after the comments [before]:
    not handled before the poll, not listed among [before], not written by
    the bot. *)
Definition submitted (me : str) (st : Bot) (before : list Comment)
    (c : Comment) : Prop :=
  (comment_id c ∉ processed_comments st) /\
  (~ In (comment_id c) (map comment_id before)) /\
  (author c <> Some me).

(** The calls of [monitor_comments] of successive polls, each with the
    comments of the post at that time. *)
Definition run_polls (me : str) (polls : list (list Comment)) (st : Bot)
  : Bot :=
  fold_left (fun st comments => monitor_comments me comments st) polls st.

(** The answer of a comment is among the stored answers. *)
Definition stored (st : Bot) (c : Comment) : Prop :=
  exists a, In a (question_answers st) /\ answer a = body c.

End WithLib.

End Rounds.

(** A round on the capital of France, for the examples: the bot's account,
    the state after the question is posted at time 0, and five comments. *)
Module Paris.
Import AnswerMatcher TriviaBot.

Definition me : str := py "quizbot".

Definition start : Bot := post_question 1 (py "Paris") 0 init.

Definition alice : Comment := mkComment 10 (Some (py "alice")) (py "London") 3.
Definition own : Comment := mkComment 11 (Some me) (py "Paris") 3.
Definition bob : Comment := mkComment 12 (Some (py "bob")) (py "paris!") 4.
Definition carol : Comment := mkComment 13 (Some (py "carol")) (py "Paris") 5.
Definition dave : Comment := mkComment 14 (Some (py "dave")) (py "Lyon") 9.

End Paris.

(** What the report of the top matching answers is made of. *)
Module Report.
Import TriviaBot.

(** The entries that [get_top_matching_answers] may show. *)
Definition shown (s : Score) : bool := float_lt 0.3 (confidence s).

(** Confidence does not grow along the list. *)
Definition descending (l : list Score) : Prop :=
  StronglySorted (fun x y => (confidence y <= confidence x)%Q) l.

(** The entries of one given confidence, in the order of the list. *)
Definition of_confidence (q : Q) (l : list Score) : list Score :=
  List.filter (fun s => Qeq_bool (confidence s) q) l.

End Report.

(** What the normal forms are made of, and what CPython guarantees about
    the characters of the two tables. *)
Module Plain.
Import AnswerMatcher.

(** An ASCII lower-case letter or a digit. *)
Definition letter_or_digit (c : N) : bool :=
  ((97 <=? c) && (c <=? 122)) || ((48 <=? c) && (c <=? 57)).

(** A text of ASCII lower-case letters, digits and spaces. *)
Definition simple_text (s : str) : bool :=
  forallb (fun c => letter_or_digit c || (c =? 32)) s.

(** The word is left alone by the loop over the words of
    [normalize_text]. *)
Definition no_table_key (word : str) : bool :=
  match dict_get abbreviations (clean word),
        dict_get roman_numerals (clean word) with
  | None, None => true
  | _, _ => false
  end.

(** What the loop over the words may put in the place of a word. *)
Definition expansions : list str :=
  map snd abbreviations ++ map snd roman_numerals.

(** An expansion is written in letters, digits and spaces, has a word, and
    when it is one word only, that word is no key of the tables. *)
Definition expansion_ok (e : str) : bool :=
  simple_text e &&
  match split (L := Ascii.lib) e with
  | [] => false
  | [w] => no_table_key w
  | _ => true
  end.

(** The symbols that [normalize_text] replaces by words. *)
Definition is_symbol (c : N) : bool :=
  existsb (N.eqb c) (map fst replacements).

(** Facts of CPython: ASCII lower-case letters and digits are alphanumeric
    and are not white space; the space is white space. *)
Class PyLibLaws (L : PyLib) : Prop := {
  isalnum_letter_or_digit : forall c,
    letter_or_digit c = true -> isalnum c = true;
  isspace_letter_or_digit : forall c,
    letter_or_digit c = true -> isspace c = false;
  isspace_space : isspace 32 = true
}.

(** The steps of [normalize_text] that are calls of the standard library,
    lines 97 to 106: [text.lower().strip()], [html.unescape],
    [unicodedata.normalize] and the removal of the combining characters. *)
Definition library_steps {L : PyLib} (text : str) : str :=
  List.filter (fun c => bool_decide (combining c = 0))
    (nfkd (html_unescape (strip (str_lower text)))).

(** A character that the steps of [normalize_text] between the calls of the
    standard library and the loop over the words leave alone: it is no
    symbol that is replaced, and the regular expression keeps it. *)
Definition settled {L : PyLib} (c : N) : Prop :=
  kept c = true /\ is_symbol c = false.

(** [s.rstrip(chars)] *)
Definition rstrip_by (p : N -> bool) (s : str) : str :=
  rev (drop_while p (rev s)).

(** A word as [str.split()] yields them: not empty, without white space. *)
Definition token {L : PyLib} (w : str) : Prop :=
  w <> [] /\ Forall (fun c => isspace c = false) w.

End Plain.

(** * Vocabulary of the further properties *)

From Stdlib Require Import Qround.

Module Rules.
Import AnswerMatcher.

(** The test of the key-word rule of [is_match] on the two sets of key
    words. *)
Definition keywords_rule (user_words correct_words : gset str) : bool :=
  negb (bool_decide (user_words = ∅)) &&
  negb (bool_decide (correct_words = ∅)) &&
  negb (bool_decide (user_words ∪ correct_words = ∅)) &&
  Qle_bool 0.7 (quotient (size (user_words ∩ correct_words))
                         (size (user_words ∪ correct_words))).

(** The test of the containment rule on the two normal forms. *)
Definition contains_rule (user_norm correct_norm : str) : bool :=
  str_in user_norm correct_norm || str_in correct_norm user_norm.

(** One of the three rules that do not look at the order of the texts. *)
Definition order_free (type : match_type) : Prop :=
  type = exact \/ type = contains \/ type = keywords.

(** [p] occurs in [s] as a block. *)
Definition occurs_in (p s : str) : Prop := exists l r, s = l ++ p ++ r.

End Rules.

Module Frame.
Import AnswerMatcher TriviaBot.

Section WithLib.
Context {L : PyLib}.

(** No stored answer is one that [is_correct_answer] accepts. *)
Definition rejected_so_far (st : Bot) : Prop :=
  forall a, In a (question_answers st) ->
    fst (fst (is_correct_answer (answer a) (current_answer st))) = false.

(** The entry of the report for the answer of a comment. *)
Definition score_of_comment (st : Bot) (c : Comment) : Score :=
  score_of (current_answer st)
    (mkAnswer (name_of c) (body c) (read_at c - question_start_time st)%Q).

(** The bot after the comments [pre] of an open round, none of which
    wins. *)
Definition past (me : str) (pre : list Comment) (st : Bot) : Bot :=
  process_comments me pre st.

End WithLib.

End Frame.

(** What happens to the statistics: calls of [update_user_stats] and the
    three resets. *)
Module Accounts.
Import TriviaBot TriviaLoop Rounds.

Inductive Event :=
  | Played (u : Update)
  | DailyReset
  | WeeklyReset
  | MonthlyReset.

Definition apply_event (stats : gmap str UserStats) (e : Event)
  : gmap str UserStats :=
  match e with
  | Played u => apply_update stats u
  | DailyReset => reset_daily_stats stats
  | WeeklyReset => reset_weekly_stats stats
  | MonthlyReset => reset_monthly_stats stats
  end.

(** The statistics after a sequence of events, the first event first. *)
Definition apply_events (events : list Event) (stats : gmap str UserStats)
  : gmap str UserStats :=
  fold_left apply_event events stats.

(** The number of answers of a player among the events, all of them or the
    correct ones only. *)
Fixpoint answers_of (correct_only : bool) (name : str) (events : list Event)
  : Z :=
  match events with
  | [] => 0
  | Played u :: events' =>
      ((if bool_decide (who u = name) && (won u || negb correct_only)
        then 1 else 0) + answers_of correct_only name events')%Z
  | _ :: events' => answers_of correct_only name events'
  end.

(** The books of a player are in order. *)
Definition balanced (name : str) (user : UserStats) : Prop :=
  username user = name /\
  (0 <= streak user <= max_streak user)%Z /\
  (max_streak user <= correct_answers user <= total_questions user)%Z /\
  (11 * correct_answers user <= total_score user
   <= 20 * correct_answers user)%Z /\
  (0 <= daily_score user <= total_score user)%Z /\
  (0 <= weekly_score user <= total_score user)%Z /\
  (0 <= monthly_score user <= total_score user)%Z.

Definition all_balanced (stats : gmap str UserStats) : Prop :=
  forall name user, stats !! name = Some user -> balanced name user.

(** The counters of a player, 0 for a player without a record. *)
Definition questions_of (stats : gmap str UserStats) (name : str) : Z :=
  from_option total_questions 0%Z (stats !! name).

Definition correct_of (stats : gmap str UserStats) (name : str) : Z :=
  from_option correct_answers 0%Z (stats !! name).

End Accounts.

(** A calendar for the examples: days of 86400 seconds, weeks of seven
    days, months of thirty. *)
Module Clock.
Import TriviaLoop.

Definition even : Calendar := {|
  date_of := fun t => Qfloor (t / 86400);
  week_of := fun t => Qfloor (t / 604800);
  month_of := fun t => Qfloor (t / 2592000)
|}.

End Clock.

(** The order of the leaderboard. *)
Module Board.
Import TriviaBot.

(** [x] stands at least as high as [y]: a greater score, or the same score
    and a longest streak at least as long. *)
Definition at_least (x y : UserStats) : Prop :=
  (total_score y < total_score x)%Z \/
  (total_score y = total_score x /\ (max_streak y <= max_streak x)%Z).

End Board.

Module Ignored.
Import AnswerMatcher TriviaBot.

(** A comment that the loop of [monitor_comments] only marks as handled:
    one handled before, or one of the bot itself. *)
Definition not_counted (me : str) (st : Bot) (c : Comment) : Prop :=
  (comment_id c ∈ processed_comments st) \/ (author c = Some me).

(** The verdicts of a table entry and its expansion, in both directions,
    on ASCII. *)
Definition entry_verdicts (entry : str * str) : match_type * match_type :=
  (snd (is_match (L := Ascii.lib) (fst entry) (snd entry) 0.8),
   snd (is_match (L := Ascii.lib) (snd entry) (fst entry) 0.8)).

End Ignored.
(** * Properties *)

From Stdlib Require Import Lqa.
Import AnswerMatcher TriviaBot.

(** ** Comparisons of floats *)

Lemma float_lt_iff (x y : Q) : float_lt x y = true <-> (x < y)%Q.
Proof.
  unfold float_lt. rewrite negb_true_iff, <- not_true_iff_false, Qle_bool_iff.
  split; [apply Qnot_le_lt | apply Qlt_not_le].
Qed.

Lemma float_lt_false_iff (x y : Q) : float_lt x y = false <-> (y <= x)%Q.
Proof.
  unfold float_lt. rewrite negb_false_iff. apply Qle_bool_iff.
Qed.

(** Splits the goal on every comparison of [calculate_points]. *)
Ltac tiers :=
  unfold calculate_points;
  repeat match goal with
  | |- context [float_lt ?x ?y] =>
      let H := fresh "Hlt" in
      destruct (float_lt x y) eqn:H;
      [apply float_lt_iff in H | apply float_lt_false_iff in H]
  end.

(** ** The matcher *)

Section Matcher.
Context {L : PyLib}.

Lemma starts_with_nil (s : str) : starts_with [] s = true.
Proof. now destruct s. Qed.

Lemma str_in_nil (s : str) : str_in [] s = true.
Proof. destruct s; reflexivity. Qed.

Lemma str_eqb_eq (a b : str) : str_eqb a b = true <-> a = b.
Proof. unfold str_eqb. apply bool_decide_eq_true. Qed.

Lemma str_eqb_refl (a : str) : str_eqb a a = true.
Proof. now apply str_eqb_eq. Qed.

Lemma str_eqb_neq (a b : str) : a <> b -> str_eqb a b = false.
Proof. intros H. unfold str_eqb. now apply bool_decide_eq_false. Qed.

(** The guard of [is_match]: an empty text on either side gives the
    verdict [empty]. *)
Lemma is_match_empty_guard (user correct : str) (threshold : Q) :
  user = [] \/ correct = [] ->
  is_match user correct threshold = (false, 0%Q, empty).
Proof.
  intros [-> | ->]; [reflexivity|]. now destruct user.
Qed.

(** What [is_match] does with two texts that are not empty, as far as the
    second rule. *)
Lemma is_match_nonempty (user correct : str) (threshold : Q) :
  user <> [] -> correct <> [] ->
  (normalize_text user = normalize_text correct ->
   is_match user correct threshold = (true, 1%Q, exact)) /\
  (normalize_text user <> normalize_text correct ->
   str_in (normalize_text user) (normalize_text correct) = true ->
   is_match user correct threshold = (true, 0.95%Q, contains)).
Proof.
  intros Hu Hc.
  destruct user as [|u user']; [congruence|].
  destruct correct as [|c correct']; [congruence|].
  unfold is_match. split.
  - intros ->. now rewrite str_eqb_refl.
  - intros Hne Hin. rewrite (str_eqb_neq _ _ Hne), Hin. reflexivity.
Qed.

End Matcher.

(** C4, amended. When two texts that are both non-empty have the same
    normalized form, [is_match] answers [exact] with confidence 1.0 and a
    match, whatever the threshold and whatever the later rules of the
    cascade would say. *)
Theorem exact_short_circuit `{L : PyLib} (a b : str) (threshold : Q) :
  a <> [] -> b <> [] ->
  normalize_text a = normalize_text b ->
  is_match a b threshold = (true, 1%Q, exact).
Proof.
  intros Ha Hb. apply (is_match_nonempty a b threshold Ha Hb).
Qed.

Lemma exact_short_circuit_witness :
  py "paris " <> [] /\ py "Paris" <> [] /\
  normalize_text (L := Ascii.lib) (py "paris ")
  = normalize_text (L := Ascii.lib) (py "Paris") /\
  is_match (L := Ascii.lib) (py "paris ") (py "Paris") 0.8 = (true, 1%Q, exact).
Proof.
  assert (Ha : py "paris " <> []) by discriminate.
  assert (Hb : py "Paris" <> []) by discriminate.
  assert (Hn : normalize_text (L := Ascii.lib) (py "paris ")
               = normalize_text (L := Ascii.lib) (py "Paris"))
    by (vm_compute; reflexivity).
  split; [exact Ha | split; [exact Hb | split; [exact Hn |]]].
  exact (exact_short_circuit (L := Ascii.lib) _ _ 0.8%Q Ha Hb Hn).
Defined.

(** C4 as stated fails on the empty text: the two normalized forms are
    equal, and the verdict is [empty], not [exact]. *)
Lemma exact_short_circuit_fails_on_empty :
  normalize_text (L := Ascii.lib) [] = normalize_text (L := Ascii.lib) [] /\
  is_match (L := Ascii.lib) [] [] 0.8 = (false, 0%Q, empty) /\
  is_match (L := Ascii.lib) [] [] 0.8 <> (true, 1%Q, exact).
Proof. split; [reflexivity | split; [reflexivity | discriminate]]. Qed.

(** C9. A candidate that is not empty but whose normalized form is, set
    against a reference that is not empty, is a match: [exact] with
    confidence 1.0 when the reference normalizes to the empty text too,
    [contains] with confidence 0.95 otherwise. *)
Theorem empty_normal_form_matches `{L : PyLib} (user correct : str)
    (threshold : Q) :
  user <> [] -> correct <> [] ->
  normalize_text user = [] ->
  is_match user correct threshold =
    if bool_decide (normalize_text correct = [])
    then (true, 1%Q, exact) else (true, 0.95%Q, contains).
Proof.
  intros Hu Hc Hn.
  destruct (is_match_nonempty user correct threshold Hu Hc) as [Hex Hin].
  case_bool_decide as Hcn.
  - apply Hex. congruence.
  - apply Hin; rewrite Hn; [congruence | apply str_in_nil].
Qed.

Lemma empty_normal_form_matches_witness :
  is_match (L := Ascii.lib) (py "?!") (py "Paris") 0.8
  = (true, 0.95%Q, contains).
Proof.
  refine (empty_normal_form_matches (L := Ascii.lib) (py "?!") (py "Paris")
            0.8%Q _ _ _); [discriminate | discriminate |].
  vm_compute. reflexivity.
Defined.

(** C3 at a candidate of three spaces: the verdict is a [contains] match
    with confidence 0.95, not [empty]. *)
Theorem whitespace_candidate_is_accepted :
  is_match (L := Ascii.lib) (py "   ") (py "Paris") 0.8
  = (true, 0.95%Q, contains).
Proof. vm_compute. reflexivity. Qed.

(** ** Points *)

(** C6. Between 0 and 45 seconds the points are 10 plus 10, 7, 5, 3 or 1
    according to the tier of the response time; they do not grow with the
    response time; five seconds sharp earn 17. *)
Theorem calculate_points_tiers :
  (forall t : Q, (0 <= t)%Q -> (t <= 45)%Q ->
     ((t < 5)%Q -> calculate_points t = (10 + 10)%Z) /\
     ((5 <= t)%Q -> (t < 10)%Q -> calculate_points t = (10 + 7)%Z) /\
     ((10 <= t)%Q -> (t < 20)%Q -> calculate_points t = (10 + 5)%Z) /\
     ((20 <= t)%Q -> (t < 35)%Q -> calculate_points t = (10 + 3)%Z) /\
     ((35 <= t)%Q -> calculate_points t = (10 + 1)%Z)) /\
  (forall t1 t2 : Q, (0 <= t1)%Q -> (t2 <= 45)%Q -> (t1 < t2)%Q ->
     (calculate_points t2 <= calculate_points t1)%Z) /\
  calculate_points 5 = 17%Z.
Proof.
  split; [|split].
  - intros t _ _. repeat split; intros; tiers; solve [reflexivity | lra].
  - intros t1 t2 _ _ Hlt. tiers; solve [lia | lra].
  - reflexivity.
Qed.

Lemma calculate_points_tiers_witness :
  calculate_points 7 = 17%Z /\ (calculate_points 30 <= calculate_points 7)%Z.
Proof.
  destruct calculate_points_tiers as [Htier [Hmono _]]. split.
  - destruct (Htier 7%Q) as [_ [H _]]; [lra | lra |]. apply H; lra.
  - apply Hmono; lra.
Defined.

(** C10. From 0 seconds on the points lie between 11 and 20, and from the
    deadline of 45 seconds on they are still 11. *)
Theorem calculate_points_range (t : Q) :
  (0 <= t)%Q ->
  (11 <= calculate_points t <= 20)%Z /\
  ((45 <= t)%Q -> calculate_points t = 11%Z).
Proof.
  intros _. split.
  - tiers; lia.
  - intros H45. tiers; solve [reflexivity | lra].
Qed.

Lemma calculate_points_range_witness :
  (11 <= calculate_points 60 <= 20)%Z /\ calculate_points 60 = 11%Z.
Proof.
  destruct (calculate_points_range 60%Q) as [Hr H]; [lra |].
  split; [exact Hr | apply H; lra].
Defined.

(** ** Streaks *)

Import Rounds.

Lemma update_user_stats_lookup (name : str) (correct : bool) (rt now : Q)
    (stats : gmap str UserStats) :
  exists user,
    update_user_stats name correct rt now stats !! name = Some user /\
    streak user =
      (if correct then streak (stats_before name now stats) + 1 else 0)%Z /\
    max_streak user =
      (if correct
       then Z.max (max_streak (stats_before name now stats))
                  (streak (stats_before name now stats) + 1)
       else max_streak (stats_before name now stats))%Z.
Proof.
  unfold update_user_stats, stats_before.
  eexists. split; [apply lookup_insert_eq|].
  destruct correct; split; reflexivity.
Qed.

Lemma update_user_stats_other (name other : str) (correct : bool)
    (rt now : Q) (stats : gmap str UserStats) :
  name <> other ->
  update_user_stats name correct rt now stats !! other = stats !! other.
Proof.
  intros Hne. unfold update_user_stats. now apply lookup_insert_ne.
Qed.

Lemma streaks_bounded_update (u : Update) (stats : gmap str UserStats) :
  streaks_bounded stats -> streaks_bounded (apply_update stats u).
Proof.
  intros Hinv name user Hlook. unfold apply_update in Hlook.
  destruct (decide (who u = name)) as [<-|Hne].
  - destruct (update_user_stats_lookup (who u) (won u) (after u) (at_time u)
                stats) as (user' & Hl & Hs & Hm).
    rewrite Hl in Hlook. injection Hlook as <-.
    assert (Hold : (0 <= streak (stats_before (who u) (at_time u) stats)
                    <= max_streak (stats_before (who u) (at_time u) stats))%Z).
    { unfold stats_before. destruct (stats !! who u) as [old|] eqn:Hold.
      - apply (Hinv _ _ Hold).
      - simpl. lia. }
    rewrite Hs, Hm. destruct (won u); lia.
  - rewrite update_user_stats_other in Hlook by assumption.
    apply (Hinv _ _ Hlook).
Qed.

Lemma streaks_bounded_updates (updates : list Update)
    (stats : gmap str UserStats) :
  streaks_bounded stats -> streaks_bounded (apply_updates updates stats).
Proof.
  revert stats. induction updates as [|u updates IH]; intros stats Hinv.
  - exact Hinv.
  - simpl. apply IH. now apply streaks_bounded_update.
Qed.

(** C7. A call of [update_user_stats] for a win adds exactly 1 to the
    player's streak and a call for a loss sets it to 0, counting from 0 for
    a player without a record; no call lowers the longest streak of any
    player; and after every sequence of calls on the empty dictionary the
    longest streak of every player is at least the current one. *)
Theorem streak_invariant :
  (forall name correct rt now stats,
     exists user,
       update_user_stats name correct rt now stats !! name = Some user /\
       streak user =
         (if correct then streak (stats_before name now stats) + 1 else 0)%Z) /\
  (forall name correct rt now stats other old,
     stats !! other = Some old ->
     exists user,
       update_user_stats name correct rt now stats !! other = Some user /\
       (max_streak old <= max_streak user)%Z) /\
  (forall updates name user,
     apply_updates updates ∅ !! name = Some user ->
     (streak user <= max_streak user)%Z).
Proof.
  split; [|split].
  - intros name correct rt now stats.
    destruct (update_user_stats_lookup name correct rt now stats)
      as (user & Hl & Hs & _).
    now exists user.
  - intros name correct rt now stats other old Hold.
    destruct (decide (name = other)) as [<-|Hne].
    + destruct (update_user_stats_lookup name correct rt now stats)
        as (user & Hl & _ & Hm).
      exists user. split; [exact Hl|]. rewrite Hm.
      unfold stats_before. rewrite Hold. simpl. destruct correct; lia.
    + exists old. rewrite update_user_stats_other by assumption.
      split; [exact Hold | lia].
  - intros updates name user Hlook.
    assert (Hinv : streaks_bounded (apply_updates updates ∅)).
    { apply streaks_bounded_updates. intros n u Hn.
      rewrite lookup_empty in Hn. discriminate. }
    apply (Hinv _ _ Hlook).
Qed.

(** Two wins and a loss of one player, with a win of another in between. *)
Lemma streak_invariant_witness :
  exists user,
    apply_updates
      [mkUpdate (py "ann") true 3 3; mkUpdate (py "ann") true 4 64;
       mkUpdate (py "bob") true 9 129; mkUpdate (py "ann") false 12 192]
      ∅ !! py "ann" = Some user /\
    streak user = 0%Z /\ max_streak user = 2%Z /\
    (streak user <= max_streak user)%Z.
Proof.
  pose (updates :=
    [mkUpdate (py "ann") true 3 3; mkUpdate (py "ann") true 4 64;
     mkUpdate (py "bob") true 9 129; mkUpdate (py "ann") false 12 192]).
  assert (Hlook : apply_updates updates ∅ !! py "ann"
                  = Some (mkUserStats (py "ann") 40 2 3 0 2 (Some 192%Q)
                                      40 40 40))
    by (vm_compute; reflexivity).
  eexists. split; [exact Hlook|].
  split; [reflexivity | split; [reflexivity|]].
  destruct streak_invariant as (_ & _ & Hinv).
  exact (Hinv updates (py "ann") _ Hlook).
Defined.

(** ** The round *)

Section Round.
Context {L : PyLib}.
Variable me : str.

(** The fields that the body of the loop never writes, and what it does to
    [waiting_for_answer]. *)
Lemma handle_comment_frame (c : Comment) (st st' : Bot) (stop : bool) :
  handle_comment me c st = (st', stop) ->
  current_question st' = current_question st /\
  current_answer st' = current_answer st /\
  question_start_time st' = question_start_time st /\
  waiting_for_answer st' = (if stop then false else waiting_for_answer st).
Proof.
  unfold handle_comment.
  repeat case_bool_decide;
    try destruct (is_correct_answer _ _) as [[[] ?] ?];
    intros [= <- <-]; repeat split; reflexivity.
Qed.

Lemma handle_comment_passed (c : Comment) (st : Bot) :
  passed_over me st c ->
  exists st',
    handle_comment me c st = (st', false) /\
    outbox st' = outbox st /\
    processed_comments st ⊆ processed_comments st' /\
    processed_comments st' ⊆ {[comment_id c]} ∪ processed_comments st.
Proof.
  intros Hp. unfold handle_comment.
  case_bool_decide as Hseen.
  { eexists. split; [reflexivity|]. split; [reflexivity|]. set_solver. }
  case_bool_decide as Hown.
  { eexists. split; [reflexivity|]. split; [reflexivity|]. simpl. set_solver. }
  destruct Hp as [Hp | [Hp | Hp]]; [contradiction | contradiction |].
  unfold accepted in Hp.
  destruct (is_correct_answer _ _) as [[correct ?] ?]. simpl in Hp. subst.
  eexists. split; [reflexivity|]. split; [reflexivity|]. simpl. set_solver.
Qed.

Lemma passed_over_mono (c : Comment) (st st' : Bot) :
  current_answer st' = current_answer st ->
  processed_comments st ⊆ processed_comments st' ->
  passed_over me st c -> passed_over me st' c.
Proof.
  intros Ha Hsub [Hp | [Hp | Hp]].
  - left. set_solver.
  - right. now left.
  - right. right. unfold accepted in *. now rewrite Ha.
Qed.

(** The loop over comments none of which can win. *)
Lemma process_comments_passed (pre : list Comment) (st : Bot) :
  Forall (passed_over me st) pre ->
  exists st',
    (forall rest,
       process_comments me (pre ++ rest) st = process_comments me rest st') /\
    current_question st' = current_question st /\
    current_answer st' = current_answer st /\
    question_start_time st' = question_start_time st /\
    waiting_for_answer st' = waiting_for_answer st /\
    outbox st' = outbox st /\
    (forall i, i ∈ processed_comments st' ->
       i ∈ processed_comments st \/ In i (map comment_id pre)).
Proof.
  revert st. induction pre as [|p pre IH]; intros st Hall.
  - exists st. repeat split; auto.
  - inversion Hall as [|? ? Hp Hrest]; subst.
    destruct (handle_comment_passed p st Hp) as (st1 & Hh & Hout & Hsub & Hsup).
    destruct (handle_comment_frame _ _ _ _ Hh) as (Hq & Ha & Ht & Hw).
    destruct (IH st1) as (st' & Hrun & Hq' & Ha' & Ht' & Hw' & Hout' & Hids).
    { eapply Forall_impl; [exact Hrest|].
      intros c. now apply passed_over_mono. }
    exists st'. split; [|repeat split; try congruence].
    + intros rest. simpl. rewrite Hh. apply Hrun.
    + intros i Hi. destruct (Hids i Hi) as [Hi1 | Hi1].
      * apply Hsup in Hi1. apply elem_of_union in Hi1 as [Hi1 | Hi1].
        -- apply elem_of_singleton in Hi1. subst. right. now left.
        -- now left.
      * right. now right.
Qed.

(** The body of the loop on an accepted submission. *)
Lemma handle_comment_winner (c : Comment) (st : Bot) :
  comment_id c ∉ processed_comments st ->
  author c <> Some me ->
  accepted st c = true ->
  exists st' cel,
    handle_comment me c st = (st', true) /\
    outbox st' = outbox st ++ [cel] /\
    replied_to cel = comment_id c /\
    winner cel = name_of c /\
    your_answer cel = strip (body c) /\
    points_earned cel
    = calculate_points (read_at c - question_start_time st).
Proof.
  intros Hseen Hown Hacc. unfold handle_comment.
  rewrite (bool_decide_eq_false_2 _ Hseen), (bool_decide_eq_false_2 _ Hown).
  unfold accepted in Hacc.
  destruct (is_correct_answer _ _) as [[correct ?] ?]. simpl in Hacc. subst.
  eexists. eexists. split; [reflexivity|]. repeat split; reflexivity.
Qed.

(** A poll in which [c] is the first accepted submission ends with the body
    of the loop on [c], whatever comes after [c]. *)
Lemma first_accepted_resolves (st : Bot) (pre : list Comment) (c : Comment) :
  round_open st ->
  Forall (passed_over me st) pre ->
  submitted me st pre c ->
  accepted st c = true ->
  exists st' cel,
    (forall post, monitor_comments me (pre ++ c :: post) st = st') /\
    current_question st' = current_question st /\
    waiting_for_answer st' = false /\
    outbox st' = outbox st ++ [cel] /\
    replied_to cel = comment_id c /\
    winner cel = name_of c /\
    your_answer cel = strip (body c) /\
    points_earned cel
    = calculate_points (read_at c - question_start_time st).
Proof.
  intros [Hq Hw] Hpre (Hseen & Hdup & Hown) Hacc.
  destruct (process_comments_passed pre st Hpre)
    as (st1 & Hrun & Hq1 & Ha1 & Ht1 & Hw1 & Hout1 & Hids).
  destruct (handle_comment_winner c st1) as (st' & cel & Hh & Hout & Hcel).
  { intros Hin. destruct (Hids _ Hin); contradiction. }
  { exact Hown. }
  { unfold accepted in *. now rewrite Ha1. }
  destruct (handle_comment_frame _ _ _ _ Hh) as (Hq' & _ & _ & Hw').
  exists st', cel. split; [|split; [congruence | split; [exact Hw'|]]].
  - intros post. unfold monitor_comments.
    destruct (current_question st); [|congruence].
    rewrite Hw. simpl negb. cbv iota.
    rewrite Hrun. simpl. now rewrite Hh.
  - rewrite Hout, Hout1, Ht1 in *. exact (conj eq_refl Hcel).
Qed.

(** A closed round: [monitor_comments] returns at once. *)
Lemma monitor_comments_closed (comments : list Comment) (st : Bot) :
  waiting_for_answer st = false -> monitor_comments me comments st = st.
Proof.
  intros Hw. unfold monitor_comments. rewrite Hw.
  now destruct (current_question st).
Qed.

Lemma process_comments_app (l1 l2 : list Comment) (st : Bot) :
  current_question st <> None -> waiting_for_answer st = true ->
  process_comments me (l1 ++ l2) st
  = monitor_comments me l2 (process_comments me l1 st).
Proof.
  revert st. induction l1 as [|c l1 IH]; intros st Hq Hw.
  - simpl. unfold monitor_comments.
    destruct (current_question st); [|congruence]. now rewrite Hw.
  - simpl. destruct (handle_comment me c st) as [st' stop] eqn:Hh.
    destruct (handle_comment_frame _ _ _ _ Hh) as (Hq' & _ & _ & Hw').
    destruct stop.
    + now rewrite monitor_comments_closed.
    + apply IH; congruence.
Qed.

Lemma monitor_comments_app (l1 l2 : list Comment) (st : Bot) :
  monitor_comments me (l1 ++ l2) st
  = monitor_comments me l2 (monitor_comments me l1 st).
Proof.
  unfold monitor_comments at 1 3.
  destruct (current_question st) eqn:Hq.
  - destruct (waiting_for_answer st) eqn:Hw; simpl.
    + apply process_comments_app; congruence.
    + now rewrite monitor_comments_closed.
  - unfold monitor_comments. now rewrite Hq.
Qed.

(** Successive polls are one poll over all their comments. *)
Lemma run_polls_concat (polls : list (list Comment)) (st : Bot) :
  run_polls me polls st = monitor_comments me (concat polls) st.
Proof.
  revert st. induction polls as [|l polls IH]; intros st.
  - simpl. unfold monitor_comments.
    destruct (current_question st); [|reflexivity].
    now destruct (waiting_for_answer st).
  - simpl. rewrite monitor_comments_app. apply IH.
Qed.

Lemma run_polls_closed (polls : list (list Comment)) (st : Bot) :
  waiting_for_answer st = false -> run_polls me polls st = st.
Proof.
  intros Hw. rewrite run_polls_concat. now apply monitor_comments_closed.
Qed.

(** The body of the loop stores at most the answer of its comment. *)
Lemma handle_comment_answers (c : Comment) (st st' : Bot) (stop : bool) :
  handle_comment me c st = (st', stop) ->
  forall a, In a (question_answers st') ->
    In a (question_answers st) \/ answer a = body c.
Proof.
  unfold handle_comment.
  repeat case_bool_decide;
    try destruct (is_correct_answer _ _) as [[[] ?] ?];
    intros [= <- <-] a Ha; simpl in Ha; auto;
    apply in_app_or in Ha as [Ha | [<- | []]]; auto.
Qed.

Lemma process_comments_answers (l : list Comment) (st : Bot) :
  forall a, In a (question_answers (process_comments me l st)) ->
    In a (question_answers st) \/ exists c, In c l /\ answer a = body c.
Proof.
  revert st. induction l as [|c l IH]; intros st a Ha; [now left|].
  simpl in Ha. destruct (handle_comment me c st) as [st' stop] eqn:Hh.
  assert (Hst' : In a (question_answers st') ->
                 In a (question_answers st) \/
                 exists c', In c' (c :: l) /\ answer a = body c').
  { intros Ha'. destruct (handle_comment_answers _ _ _ _ Hh a Ha'); [now left|].
    right. exists c. split; [now left | assumption]. }
  destruct stop; [now apply Hst'|].
  destruct (IH st' a Ha) as [Ha' | (c' & Hc' & Hb)]; [now apply Hst'|].
  right. exists c'. split; [now right | assumption].
Qed.

Lemma monitor_comments_answers (l : list Comment) (st : Bot) :
  forall a, In a (question_answers (monitor_comments me l st)) ->
    In a (question_answers st) \/ exists c, In c l /\ answer a = body c.
Proof.
  intros a. unfold monitor_comments.
  destruct (current_question st); [|now left].
  destruct (waiting_for_answer st); simpl; [|now left].
  apply process_comments_answers.
Qed.

End Round.



(** C8, amended. Once a submission has won the round, the bot stays exactly
    as the body of the loop left it on the winning comment: the comments
    after it in the same poll and the comments of all later polls change
    neither the status nor the celebration posted, and they are neither
    classified nor stored, so the stored answers are those of the comments
    up to the winning one. *)
Theorem resolved_round_is_inert `{L : PyLib} (me : str) (st : Bot)
    (polls : list (list Comment)) (pre : list Comment) (c : Comment)
    (post : list Comment) (later : list (list Comment)) :
  round_open st ->
  concat polls = pre ++ c :: post ->
  Forall (passed_over me st) pre ->
  submitted me st pre c ->
  accepted st c = true ->
  run_polls me later (run_polls me polls st)
  = monitor_comments me (pre ++ [c]) st /\
  waiting_for_answer (run_polls me later (run_polls me polls st)) = false /\
  (forall a,
     In a (question_answers (run_polls me later (run_polls me polls st))) ->
     In a (question_answers st) \/
     exists d, In d (pre ++ [c]) /\ answer a = body d).
Proof.
  intros Hopen Hpolls Hpre Hsub Hacc.
  destruct (first_accepted_resolves me st pre c Hopen Hpre Hsub Hacc)
    as (st' & cel & Hrun & _ & Hw & _).
  assert (Hfinal : run_polls me later (run_polls me polls st)
                   = monitor_comments me (pre ++ [c]) st).
  { rewrite (run_polls_concat me polls), Hpolls, (Hrun post).
    rewrite (run_polls_closed me later st' Hw). symmetry. apply Hrun. }
  split; [exact Hfinal|]. rewrite Hfinal. split.
  - now rewrite (Hrun []).
  - apply monitor_comments_answers.
Qed.

Lemma resolved_round_is_inert_witness :
  run_polls (L := Ascii.lib) Paris.me [[Paris.dave]]
    (run_polls (L := Ascii.lib) Paris.me
       [[Paris.alice; Paris.own]; [Paris.bob; Paris.carol]] Paris.start)
  = monitor_comments (L := Ascii.lib) Paris.me
      [Paris.alice; Paris.own; Paris.bob] Paris.start.
Proof.
  refine (proj1 (resolved_round_is_inert (L := Ascii.lib) Paris.me Paris.start
            [[Paris.alice; Paris.own]; [Paris.bob; Paris.carol]]
            [Paris.alice; Paris.own] Paris.bob [Paris.carol] [[Paris.dave]]
            _ _ _ _ _)).
  - split; [discriminate | reflexivity].
  - reflexivity.
  - constructor; [|constructor; [|constructor]].
    + right. right. vm_compute. reflexivity.
    + right. left. reflexivity.
  - split; [|split].
    + apply not_elem_of_empty.
    + simpl. intros [H | [H | []]]; discriminate.
    + discriminate.
  - vm_compute. reflexivity.
Defined.

(** C8 as stated fails: after bob has won, the answers of carol, who
    comments later in the same poll, and of dave, who comments in the next
    one, are not stored. *)
Lemma later_submission_is_not_stored :
  let resolved :=
    run_polls (L := Ascii.lib) Paris.me
      [[Paris.alice; Paris.own]; [Paris.bob; Paris.carol]] Paris.start in
  let final := run_polls (L := Ascii.lib) Paris.me [[Paris.dave]] resolved in
  waiting_for_answer resolved = false /\
  ~ stored final Paris.carol /\ ~ stored final Paris.dave.
Proof.
  intros resolved final.
  assert (Hqa : map answer (question_answers final)
                = [py "London"; py "paris!"]) by (vm_compute; reflexivity).
  split; [vm_compute; reflexivity|].
  split; intros (a & Ha & Hb); apply (in_map answer) in Ha;
    rewrite Hqa, Hb in Ha; simpl in Ha;
    destruct Ha as [H | [H | []]]; discriminate.
Qed.

(** ** The report of the top matching answers *)

Import Report.

Lemma insert_by_confidence_Forall (P : Score -> Prop) (x : Score)
    (l : list Score) :
  P x -> Forall P l -> Forall P (insert_by_confidence x l).
Proof.
  intros Hx Hl. induction Hl as [|y l Hy Hl IH]; simpl.
  - now constructor.
  - destruct (Qle_bool (confidence y) (confidence x)).
    + constructor; [assumption | now constructor].
    + now constructor.
Qed.

Lemma insert_by_confidence_descending (x : Score) (l : list Score) :
  descending l -> descending (insert_by_confidence x l).
Proof.
  unfold descending. intros Hl. induction Hl as [|y l Hl IH Hy]; simpl.
  - constructor; constructor.
  - destruct (Qle_bool (confidence y) (confidence x)) eqn:Hle.
    + apply Qle_bool_iff in Hle. constructor; [now constructor|].
      constructor; [exact Hle|].
      eapply Forall_impl; [exact Hy|].
      intros z Hz. simpl in Hz. now apply Qle_trans with (confidence y).
    + constructor; [exact IH|].
      apply insert_by_confidence_Forall; [|exact Hy].
      apply Qlt_le_weak, Qnot_le_lt. intros Hc.
      apply Qle_bool_iff in Hc. congruence.
Qed.

Lemma sort_by_confidence_descending (l : list Score) :
  descending (sort_by_confidence l).
Proof.
  induction l as [|x l IH]; simpl.
  - constructor.
  - now apply insert_by_confidence_descending.
Qed.

Lemma insert_by_confidence_perm (x : Score) (l : list Score) :
  Permutation (insert_by_confidence x l) (x :: l).
Proof.
  induction l as [|y l IH]; simpl; [reflexivity|].
  destruct (Qle_bool (confidence y) (confidence x)); [reflexivity|].
  rewrite IH. apply perm_swap.
Qed.

Lemma sort_by_confidence_perm (l : list Score) :
  Permutation (sort_by_confidence l) l.
Proof.
  induction l as [|x l IH]; simpl; [reflexivity|].
  rewrite insert_by_confidence_perm. now constructor.
Qed.

(** The sort is stable: entries of equal confidence keep their order. *)
Lemma insert_by_confidence_stable (q : Q) (x : Score) (l : list Score) :
  of_confidence q (insert_by_confidence x l) = of_confidence q (x :: l).
Proof.
  unfold of_confidence. induction l as [|y l IH]; [reflexivity|].
  cbn [insert_by_confidence].
  destruct (Qle_bool (confidence y) (confidence x)) eqn:Hle; [reflexivity|].
  cbn [List.filter] in *. rewrite IH.
  destruct (Qeq_bool (confidence x) q) eqn:Hx; [|reflexivity].
  destruct (Qeq_bool (confidence y) q) eqn:Hy; [|reflexivity].
  apply Qeq_bool_iff in Hx, Hy.
  assert (Hc : Qle_bool (confidence y) (confidence x) = true).
  { apply Qle_bool_iff. rewrite Hx, Hy. apply Qle_refl. }
  congruence.
Qed.

Lemma sort_by_confidence_stable (q : Q) (l : list Score) :
  of_confidence q (sort_by_confidence l) = of_confidence q l.
Proof.
  induction l as [|x l IH]; [reflexivity|].
  cbn [sort_by_confidence fold_right].
  rewrite insert_by_confidence_stable. unfold of_confidence in *.
  cbn [List.filter]. fold (sort_by_confidence l). now rewrite IH.
Qed.

(** The loop that fills [top_matches] takes the entries it may show, in
    order, until it has [limit] of them. *)
Lemma collect_top_firstn (limit : nat) (l acc : list Score) :
  (length acc <= limit)%nat ->
  collect_top limit l acc
  = acc ++ firstn (limit - length acc) (List.filter shown l).
Proof.
  revert acc. induction l as [|x l IH]; intros acc Hacc.
  - simpl. rewrite firstn_nil. now rewrite app_nil_r.
  - cbn [collect_top List.filter]. fold (shown x).
    destruct (limit <=? length acc)%nat eqn:Hfull.
    + apply Nat.leb_le in Hfull.
      replace (limit - length acc)%nat with 0%nat by lia.
      now rewrite app_nil_r.
    + apply Nat.leb_gt in Hfull. destruct (shown x).
      * rewrite IH by (rewrite length_app; simpl; lia).
        rewrite length_app. simpl.
        replace (limit - length acc)%nat
          with (S (limit - (length acc + 1)))%nat by lia.
        simpl. now rewrite <- app_assoc.
      * now apply IH.
Qed.

(** In a descending list nothing after an entry that is not shown is. *)
Lemma descending_not_shown (x : Score) (l : list Score) :
  descending (x :: l) -> shown x = false -> List.filter shown l = [].
Proof.
  intros Hd Hx. inversion Hd as [|? ? _ Hall]; subst. clear Hd.
  apply float_lt_false_iff in Hx.
  induction Hall as [|y l Hy Hall IH]; [reflexivity|].
  simpl. assert (Hs : shown y = false).
  { apply float_lt_false_iff. now apply Qle_trans with (confidence x). }
  rewrite Hs. exact IH.
Qed.

Lemma firstn_filter_window (l : list Score) :
  descending l -> forall n m, (n <= m)%nat ->
  firstn n (List.filter shown (firstn m l)) = firstn n (List.filter shown l).
Proof.
  induction l as [|x l IH]; intros Hd n m Hnm.
  - now rewrite firstn_nil.
  - destruct m as [|m].
    + assert (n = 0%nat) by lia. subst. reflexivity.
    + cbn [firstn List.filter]. destruct (shown x) eqn:Hx.
      * destruct n as [|n]; [reflexivity|]. cbn [firstn]. f_equal.
        apply IH; [|lia]. now inversion Hd.
      * pose proof (descending_not_shown x l Hd Hx) as Hnone.
        rewrite Hnone.
        assert (Hd' : descending (x :: firstn m l)).
        { inversion Hd as [|? ? Hl Hall]; subst. constructor.
          - clear -Hl. revert m. induction Hl as [|y l Hl IHl Hy]; intros m.
            + rewrite firstn_nil. constructor.
            + destruct m; [constructor|]. simpl. constructor; [apply IHl|].
              clear -Hy. revert m.
              induction Hy as [|z l Hz Hy IHy]; intros m.
              * rewrite firstn_nil. constructor.
              * destruct m; [constructor|]. simpl. now constructor.
          - clear -Hall. revert m.
            induction Hall as [|z l Hz Hall IHa]; intros m.
            + rewrite firstn_nil. constructor.
            + destruct m; [constructor|]. simpl. now constructor. }
        now rewrite (descending_not_shown x (firstn m l) Hd' Hx).
Qed.

Section Report.
Context {L : PyLib}.

(** What [get_top_matching_answers] returns: of all stored answers, scored
    against the correct answer and put in descending order of confidence
    with entries of equal confidence in order of arrival, the first [limit]
    whose confidence is above 0.3. The winner's answer is among the stored
    answers. *)
Lemma get_top_matching_answers_ranking (answers : list Answer)
    (correct : str) (limit : nat) :
  get_top_matching_answers answers correct limit
  = firstn limit
      (List.filter shown
         (sort_by_confidence (map (score_of correct) answers))).
Proof.
  unfold get_top_matching_answers.
  rewrite collect_top_firstn by (simpl; lia).
  simpl. rewrite Nat.sub_0_r.
  apply firstn_filter_window; [apply sort_by_confidence_descending | lia].
Qed.

End Report.

(** C2 on a round of two submissions. The report posted with bob's
    celebration lists bob's own winning answer as its only entry, although
    the report is to leave out the winner. *)
Theorem top_matches_list_the_winner :
  map top_matches
    (outbox (monitor_comments (L := Ascii.lib) Paris.me
               [Paris.alice; Paris.bob] Paris.start))
  = [[mkScore (py "bob") (py "paris!") 1 exact true]].
Proof. vm_compute. reflexivity. Qed.

(** ** Normal forms *)

Import Plain.

(** *** Stripping *)

Lemma drop_while_app (p : N -> bool) (a b : str) :
  drop_while p (a ++ b)
  = match drop_while p a with
    | [] => drop_while p b
    | r => r ++ b
    end.
Proof.
  induction a as [|c a IH]; simpl; [now destruct (drop_while p b)|].
  now destruct (p c).
Qed.

(** Stripping at the end, one character at a time from the front. *)
Lemma rstrip_cons (p : N -> bool) (c : N) (s : str) :
  rstrip_by p (c :: s)
  = match rstrip_by p s with
    | [] => if p c then [] else [c]
    | r => c :: r
    end.
Proof.
  unfold rstrip_by. simpl rev at 2. rewrite drop_while_app.
  destruct (drop_while p (rev s)) as [|d r] eqn:Hd.
  - simpl. now destruct (p c).
  - rewrite rev_app_distr. simpl.
    destruct (rev r ++ [d]) eqn:Hr; [|reflexivity].
    destruct (rev r); discriminate.
Qed.

Lemma strip_by_rstrip (p : N -> bool) (s : str) :
  strip_by p s = rstrip_by p (drop_while p s).
Proof. reflexivity. Qed.

Lemma rstrip_snoc_stripped (p : N -> bool) (s : str) (c : N) :
  p c = true -> rstrip_by p (s ++ [c]) = rstrip_by p s.
Proof.
  intros Hc. unfold rstrip_by. rewrite rev_app_distr. simpl. now rewrite Hc.
Qed.

Lemma rstrip_rev_kept (p : N -> bool) (cur : str) :
  match cur with [] => True | c :: _ => p c = false end ->
  rstrip_by p (rev cur) = rev cur.
Proof.
  intros Hc. unfold rstrip_by. rewrite rev_involutive.
  destruct cur as [|c cur]; [reflexivity|]. simpl drop_while. now rewrite Hc.
Qed.

Lemma rstrip_head_kept (p : N -> bool) (c : N) (s : str) :
  p c = false -> rstrip_by p (c :: s) <> [].
Proof.
  intros Hc. rewrite rstrip_cons, Hc. now destruct (rstrip_by p s).
Qed.

Lemma rstrip_app (p : N -> bool) (u s : str) :
  rstrip_by p s <> [] -> rstrip_by p (u ++ s) = u ++ rstrip_by p s.
Proof.
  intros Hs. induction u as [|c u IH]; [reflexivity|].
  simpl app. rewrite rstrip_cons, IH.
  destruct (u ++ rstrip_by p s) eqn:He; [|reflexivity].
  apply app_eq_nil in He. tauto.
Qed.

(** *** Splitting and joining *)

Section Words.
Context {L : PyLib}.
Hypothesis space_is_space : isspace 32 = true.

Lemma join_sp_cons (w : str) (ws : list str) :
  join_sp (w :: ws)
  = match ws with [] => w | _ => w ++ 32 :: join_sp ws end.
Proof. now destruct ws. Qed.

Lemma split_from_tokens (t cur : str) :
  Forall (fun c => isspace c = false) cur ->
  Forall token (split_from cur t).
Proof.
  revert cur. induction t as [|c t IH]; intros cur Hcur; simpl.
  - destruct cur as [|d cur]; constructor; [|constructor]. split.
    + simpl. now destruct (rev cur).
    + apply Forall_rev. exact Hcur.
  - destruct (isspace c) eqn:Hc.
    + destruct cur as [|d cur]; [now apply IH|].
      constructor; [|now apply IH]. split.
      * simpl. now destruct (rev cur).
      * apply Forall_rev. exact Hcur.
    + apply IH. now constructor.
Qed.

Lemma split_tokens (t : str) : Forall token (split t).
Proof. apply split_from_tokens. constructor. Qed.

Lemma join_sp_tokens_nil (ws : list str) :
  Forall token ws -> join_sp ws = [] -> ws = [].
Proof.
  intros Hws Hj. destruct Hws as [|w ws [Hw _] _]; [reflexivity|].
  rewrite join_sp_cons in Hj. destruct w; [congruence|].
  destruct ws; discriminate.
Qed.

(** After a run of white space, [collapse_from] starts with a character
    that is none, if it yields any. *)
Lemma collapse_in_run_head (t : str) :
  drop_while isspace (collapse_from true t) = collapse_from true t.
Proof.
  induction t as [|c t IH]; [reflexivity|]. simpl.
  destruct (isspace c) eqn:Hc; [exact IH|]. simpl. now rewrite Hc.
Qed.

Lemma collapse_in_run_rstrip_nil (t : str) :
  rstrip_by isspace (collapse_from true t) = [] -> collapse_from true t = [].
Proof.
  pose proof (collapse_in_run_head t) as Hd.
  destruct (collapse_from true t) as [|c s]; [reflexivity|].
  simpl in Hd. destruct (isspace c) eqn:Hc.
  - exfalso. assert (Hlen : (length (drop_while isspace s) <= length s)%nat).
    { clear. induction s as [|d s IH]; simpl; [lia|].
      destruct (isspace d); simpl; lia. }
    rewrite Hd in Hlen. simpl in Hlen. lia.
  - intros Hr. now apply rstrip_head_kept in Hr.
Qed.

(** Collapsing the white space of a text and stripping it leaves its words,
    one space apart. *)
Lemma strip_collapse_words (t : str) :
  (forall b,
     rstrip_by isspace (drop_while isspace (collapse_from b t))
     = join_sp (split_from [] t)) /\
  (forall cur, cur <> [] -> Forall (fun c => isspace c = false) cur ->
     rstrip_by isspace (rev cur ++ collapse_from false t)
     = join_sp (split_from cur t)).
Proof.
  induction t as [|c t [IHa IHb]]; split.
  - intros b. reflexivity.
  - intros cur Hne Hcur. simpl. rewrite app_nil_r.
    destruct cur as [|d cur]; [congruence|].
    apply rstrip_rev_kept. now inversion Hcur.
  - intros b. simpl. destruct (isspace c) eqn:Hc.
    + destruct b; simpl; [|rewrite space_is_space]; apply IHa.
    + simpl. rewrite Hc. apply (IHb [c]); [discriminate|].
      now constructor.
  - intros cur Hne Hcur.
    assert (Hstep : split_from cur (c :: t)
                    = if isspace c then rev cur :: split_from [] t
                      else split_from (c :: cur) t).
    { simpl. destruct (isspace c); [|reflexivity].
      destruct cur; [congruence | reflexivity]. }
    rewrite Hstep. cbn [collapse_from]. destruct (isspace c) eqn:Hc.
    + assert (Hhead : match cur with
                      | [] => True
                      | d :: _ => isspace d = false
                      end) by now destruct Hcur.
      rewrite join_sp_cons.
      pose proof (IHa true) as Ha. rewrite collapse_in_run_head in Ha.
      pose proof (split_tokens t) as Htok. unfold split in Htok.
      destruct (split_from [] t) as [|w ws] eqn:Hsplit.
      * simpl in Ha. apply collapse_in_run_rstrip_nil in Ha. rewrite Ha.
        rewrite rstrip_snoc_stripped by exact space_is_space.
        now apply rstrip_rev_kept.
      * assert (Hne' : rstrip_by isspace (collapse_from true t) <> []).
        { rewrite Ha. intros Hj.
          now apply (join_sp_tokens_nil _ Htok) in Hj. }
        change (rev cur ++ 32 :: collapse_from true t)
          with (rev cur ++ [32] ++ collapse_from true t).
        rewrite app_assoc, rstrip_app by exact Hne'.
        rewrite Ha, <- app_assoc. reflexivity.
    + change (rev cur ++ c :: collapse_from false t)
        with (rev cur ++ [c] ++ collapse_from false t).
      rewrite app_assoc. apply (IHb (c :: cur)); [discriminate|].
      now constructor.
Qed.

Lemma strip_collapse_spaces (t : str) :
  strip (collapse_spaces t) = join_sp (split t).
Proof.
  unfold strip, collapse_spaces, split. rewrite strip_by_rstrip.
  apply strip_collapse_words.
Qed.

Lemma split_from_word (w cur s : str) :
  Forall (fun c => isspace c = false) w ->
  split_from cur (w ++ s) = split_from (rev w ++ cur) s.
Proof.
  intros Hw. revert cur. induction Hw as [|c w Hc Hw IH]; intros cur.
  - reflexivity.
  - simpl. rewrite Hc, IH, <- app_assoc. reflexivity.
Qed.

(** Splitting what was joined gives the words back. *)
Lemma split_join_sp (ws : list str) :
  Forall token ws -> split (join_sp ws) = ws.
Proof.
  unfold split. intros Hws. induction Hws as [|w ws [Hne Hw] Hws IH].
  - reflexivity.
  - rewrite join_sp_cons. destruct ws as [|w' ws'].
    + rewrite <- (app_nil_r w) at 1. rewrite split_from_word by exact Hw.
      rewrite app_nil_r. cbn [split_from].
      destruct (rev w) eqn:Hr.
      * apply (f_equal (@rev N)) in Hr. rewrite rev_involutive in Hr.
        simpl in Hr. congruence.
      * now rewrite <- Hr, rev_involutive.
    + rewrite split_from_word by exact Hw. rewrite app_nil_r.
      cbn [split_from]. rewrite space_is_space.
      destruct (rev w) eqn:Hr.
      * apply (f_equal (@rev N)) in Hr. rewrite rev_involutive in Hr.
        simpl in Hr. congruence.
      * rewrite <- Hr, rev_involutive. f_equal. exact IH.
Qed.

End Words.

Lemma rstrip_last (p : N -> bool) (s : str) (c : N) :
  p c = false -> rstrip_by p (s ++ [c]) = s ++ [c].
Proof.
  intros Hc. unfold rstrip_by. rewrite rev_app_distr. simpl. rewrite Hc.
  simpl. now rewrite rev_involutive.
Qed.

Lemma replace_char_absent (old : N) (new s : str) :
  ~ In old s -> replace_char old new s = s.
Proof.
  unfold replace_char. induction s as [|c s IH]; intros Hin; [reflexivity|].
  simpl. destruct (N.eqb_spec c old) as [->|Hne].
  - exfalso. apply Hin. now left.
  - simpl. f_equal. apply IH. intros H. apply Hin. now right.
Qed.

Lemma replacements_absent (table : list (N * str)) (s : str) :
  Forall (fun sr => ~ In (fst sr) s) table ->
  fold_left (fun t sr => replace_char (fst sr) (snd sr) t) table s = s.
Proof.
  intros Htable. induction Htable as [|sr table Hsr Htable IH].
  - reflexivity.
  - simpl. rewrite replace_char_absent by exact Hsr. exact IH.
Qed.

(** Turns the boolean tests on characters into arithmetic. *)
Ltac char_tests :=
  repeat match goal with
  | H : _ && _ = true |- _ => apply andb_true_iff in H; destruct H
  | H : _ || _ = true |- _ => apply orb_true_iff in H; destruct H
  | H : _ && _ = false |- _ => apply andb_false_iff in H; destruct H
  | H : _ || _ = false |- _ => apply orb_false_iff in H; destruct H
  | H : (_ <=? _) = true |- _ => apply N.leb_le in H
  | H : (_ <=? _) = false |- _ => apply N.leb_gt in H
  | H : (_ =? _) = true |- _ => apply N.eqb_eq in H
  | H : (_ =? _) = false |- _ => apply N.eqb_neq in H
  end.

(** The interface on ASCII obeys the laws. *)
Lemma ascii_lib_laws : PyLibLaws Ascii.lib.
Proof.
  split.
  - intros c Hc. simpl. unfold Ascii.alnum. unfold letter_or_digit in Hc.
    apply orb_true_iff in Hc as [Hc | Hc]; rewrite Hc.
    + apply orb_true_r.
    + reflexivity.
  - intros c Hc. simpl. apply not_true_is_false. intros Hs.
    unfold letter_or_digit in Hc. unfold Ascii.space in Hs.
    char_tests; lia.
  - reflexivity.
Qed.

(** The interface with character references obeys the laws. *)
Lemma entities_lib_laws : PyLibLaws Entities.lib.
Proof.
  split.
  - intros c Hc. simpl. unfold Entities.alnum.
    pose proof (isalnum_letter_or_digit (PyLibLaws := ascii_lib_laws) _ Hc)
      as Ha.
    simpl in Ha. now rewrite Ha.
  - apply (isspace_letter_or_digit (PyLibLaws := ascii_lib_laws)).
  - reflexivity.
Qed.

(** *** Where the characters of a normal form come from *)

Lemma replace_char_In (old : N) (new s : str) (c : N) :
  In c (replace_char old new s) -> (In c s /\ c <> old) \/ In c new.
Proof.
  unfold replace_char. intros Hin.
  apply List.in_flat_map in Hin as (d & Hd & Hc).
  destruct (N.eqb_spec d old) as [->|Hne]; [now right|].
  destruct Hc as [<-|[]]. left. now split.
Qed.

Lemma replacements_In (table : list (N * str)) (s : str) (c : N) :
  In c (fold_left (fun t sr => replace_char (fst sr) (snd sr) t) table s) ->
  (In c s /\ ~ In c (map fst table)) \/ In c (flat_map snd table).
Proof.
  revert s. induction table as [|[old new] table IH]; intros s Hin.
  - left. split; [exact Hin | intros []].
  - simpl in Hin. apply IH in Hin as [[Hin Hnot] | Hin].
    + apply replace_char_In in Hin as [[Hin Hne] | Hin].
      * left. split; [exact Hin|]. simpl. intros [H | H]; [congruence | tauto].
      * right. simpl. apply in_or_app. now left.
    + right. simpl. apply in_or_app. now right.
Qed.

Lemma is_symbol_In (c : N) :
  ~ In c (map fst replacements) -> is_symbol c = false.
Proof.
  intros Hnot. apply not_true_is_false. intros Hs. apply Hnot.
  unfold is_symbol in Hs. apply existsb_exists in Hs as (d & Hd & Heq).
  apply N.eqb_eq in Heq. now subst.
Qed.

Lemma is_symbol_not_In (c : N) :
  is_symbol c = false -> ~ In c (map fst replacements).
Proof.
  intros Hs Hin. unfold is_symbol in Hs.
  assert (Ht : existsb (N.eqb c) (map fst replacements) = true).
  { apply existsb_exists. exists c. split; [exact Hin | apply N.eqb_refl]. }
  congruence.
Qed.

(** After the replacements no symbol is left: no word that takes the place
    of a symbol holds one. *)
Lemma replacements_symbol_free (s : str) (c : N) :
  In c (fold_left (fun t sr => replace_char (fst sr) (snd sr) t)
                  replacements s) ->
  is_symbol c = false.
Proof.
  intros Hin. apply replacements_In in Hin as [[_ Hnot] | Hin].
  - now apply is_symbol_In.
  - assert (Hwords : forallb (fun c => negb (is_symbol c))
                       (flat_map snd replacements) = true)
      by (vm_compute; reflexivity).
    rewrite List.forallb_forall in Hwords. apply Hwords in Hin.
    now apply negb_true_iff in Hin.
Qed.

Lemma join_sp_In (ws : list str) (c : N) :
  In c (join_sp ws) -> c = 32 \/ exists w, In w ws /\ In c w.
Proof.
  induction ws as [|w ws IH]; [intros []|].
  destruct ws as [|w' ws'].
  - intros Hin. right. exists w. split; [now left | exact Hin].
  - change (join_sp (w :: w' :: ws')) with (w ++ 32 :: join_sp (w' :: ws')).
    intros Hin. apply in_app_or in Hin as [Hin | [<- | Hin]].
    + right. exists w. split; [now left | exact Hin].
    + now left.
    + destruct (IH Hin) as [-> | (v & Hv & Hc)]; [now left|].
      right. exists v. split; [now right | exact Hc].
Qed.

Lemma dict_get_In {V} (d : list (str * V)) (k : str) (v : V) :
  dict_get d k = Some v -> In v (map snd d).
Proof.
  induction d as [|[k' v'] d IH]; simpl; [discriminate|].
  destruct (str_eqb k k').
  - intros [= <-]. now left.
  - intros Hget. right. now apply IH.
Qed.

(** The loop over the words leaves a word alone or puts an expansion in its
    place. *)
Lemma normalize_word_cases (w : str) :
  (no_table_key w = true /\ normalize_word w = w) \/
  (no_table_key w = false /\ In (normalize_word w) expansions).
Proof.
  unfold no_table_key, normalize_word, expansions.
  destruct (dict_get abbreviations (clean w)) as [full|] eqn:Ha.
  - right. split; [reflexivity|]. apply in_or_app. left.
    now apply dict_get_In in Ha.
  - destruct (dict_get roman_numerals (clean w)) as [digits|] eqn:Hr.
    + right. split; [reflexivity|]. apply in_or_app. right.
      now apply dict_get_In in Hr.
    + now left.
Qed.

Lemma expansions_ok (e : str) : In e expansions -> expansion_ok e = true.
Proof.
  assert (Hall : forallb expansion_ok expansions = true)
    by (vm_compute; reflexivity).
  rewrite List.forallb_forall in Hall. apply Hall.
Qed.

Section Idempotence.
Context {L : PyLib} {Laws : PyLibLaws L}.

(** A normal form is a list of words, one space apart. *)
Lemma normalize_text_words (x : str) :
  exists ws, Forall token ws /\ normalize_text x = join_sp ws.
Proof.
  destruct x as [|c x]; [exists []; now split|].
  unfold normalize_text. eexists. split; [apply split_tokens|].
  apply (strip_collapse_spaces isspace_space).
Qed.

Lemma join_sp_tokens_last (ws : list str) :
  Forall token ws -> ws <> [] ->
  exists u c, join_sp ws = u ++ [c] /\ isspace c = false.
Proof.
  intros Hws. induction Hws as [|w ws [Hne Hw] Hws IH]; [congruence|].
  intros _. rewrite join_sp_cons. destruct ws as [|w' ws'].
  - destruct (exists_last Hne) as (u & c & ->). exists u, c. split; [easy|].
    apply Forall_app in Hw as [_ Hc]. now inversion Hc.
  - destruct IH as (u & c & Hj & Hc); [discriminate|].
    exists (w ++ 32 :: u), c. split; [|exact Hc].
    rewrite Hj, <- app_assoc. reflexivity.
Qed.

Lemma strip_join_sp (ws : list str) :
  Forall token ws -> strip (join_sp ws) = join_sp ws.
Proof.
  intros Hws. destruct ws as [|w ws]; [reflexivity|].
  unfold strip. rewrite strip_by_rstrip.
  destruct (join_sp_tokens_last _ Hws) as (u & c & Hj & Hc); [discriminate|].
  assert (Hhead : drop_while isspace (join_sp (w :: ws)) = join_sp (w :: ws)).
  { rewrite join_sp_cons. inversion Hws as [|? ? [Hne Hw] _]; subst.
    destruct w as [|d w]; [congruence|]. inversion Hw; subst.
    destruct ws; simpl; now rewrite H1. }
  rewrite Hhead, Hj. now apply rstrip_last.
Qed.

Lemma normalize_word_no_key (ws : list str) :
  forallb no_table_key ws = true -> map normalize_word ws = ws.
Proof.
  induction ws as [|w ws IH]; [reflexivity|]. simpl.
  intros H. apply andb_true_iff in H as [Hw Hws]. rewrite IH by exact Hws.
  f_equal. unfold no_table_key in Hw. unfold normalize_word.
  destruct (dict_get abbreviations (clean w)); [discriminate|].
  now destruct (dict_get roman_numerals (clean w)).
Qed.

Lemma kept_space : kept 32 = true.
Proof. unfold kept. rewrite isspace_space, orb_true_r. reflexivity. Qed.

Lemma blank_punctuation_In (s : str) (c : N) :
  In c (blank_punctuation s) -> kept c = true /\ (In c s \/ c = 32).
Proof.
  unfold blank_punctuation. intros Hin.
  apply in_map_iff in Hin as (d & Hd & Hin).
  destruct (kept d) eqn:Hk; subst.
  - split; [exact Hk | now left].
  - split; [exact kept_space | now right].
Qed.

Lemma split_from_In (s cur w : str) (c : N) :
  In w (split_from cur s) -> In c w -> In c cur \/ In c s.
Proof.
  revert cur. induction s as [|d s IH]; intros cur Hw Hc; simpl in Hw.
  - destruct cur as [|e cur]; [destruct Hw|].
    destruct Hw as [<-|[]]. left. now apply in_rev.
  - destruct (isspace d).
    + destruct cur as [|e cur].
      * destruct (IH [] Hw Hc) as [[] | Hin]. right. now right.
      * destruct Hw as [<- | Hw]; [left; now apply in_rev|].
        destruct (IH [] Hw Hc) as [[] | Hin]. right. now right.
    + destruct (IH (d :: cur) Hw Hc) as [[<- | Hin] | Hin].
      * right. now left.
      * now left.
      * right. now right.
Qed.

(** Letters, digits and the space are left alone. *)
Lemma simple_settled (c : N) :
  letter_or_digit c || (c =? 32) = true -> settled c.
Proof.
  intros Hc. split.
  - apply orb_true_iff in Hc as [Hc | Hc].
    + unfold kept. now rewrite (isalnum_letter_or_digit _ Hc).
    + apply N.eqb_eq in Hc. subst. exact kept_space.
  - apply is_symbol_In. intros Hin. simpl in Hin.
    repeat (destruct Hin as [<- | Hin]; [vm_compute in Hc; discriminate|]).
    destruct Hin.
Qed.

(** The characters of a normal form are left alone by the replacements
    and by the regular expression. *)
Lemma normal_form_settled (x : str) (c : N) :
  In c (normalize_text x) -> settled c.
Proof.
  destruct x as [|d x]; [intros []|]. unfold normalize_text.
  rewrite (strip_collapse_spaces isspace_space).
  intros Hin. apply join_sp_In in Hin as [-> | (w & Hw & Hin)];
    [now apply simple_settled|].
  destruct (split_from_In _ _ _ _ Hw Hin) as [[] | Hj]. clear w Hw Hin.
  apply join_sp_In in Hj as [-> | (w & Hw & Hin)];
    [now apply simple_settled|].
  apply in_map_iff in Hw as (v & <- & Hv).
  destruct (normalize_word_cases v) as [[_ Heq] | [_ Hexp]].
  - rewrite Heq in Hin.
    destruct (split_from_In _ _ _ _ Hv Hin) as [[] | Hb].
    destruct (blank_punctuation_In _ _ Hb) as [Hk [Hr | ->]].
    + split; [exact Hk|]. exact (replacements_symbol_free _ _ Hr).
    + apply simple_settled. reflexivity.
  - apply expansions_ok in Hexp. unfold expansion_ok in Hexp.
    apply andb_true_iff in Hexp as [Hsimple _]. unfold simple_text in Hsimple.
    rewrite List.forallb_forall in Hsimple. apply simple_settled.
    exact (Hsimple _ Hin).
Qed.

Lemma replacements_settled (s : str) :
  (forall c, In c s -> settled c) ->
  fold_left (fun t sr => replace_char (fst sr) (snd sr) t) replacements s = s.
Proof.
  intros Hs. apply replacements_absent. apply List.Forall_forall.
  intros [old new] Hsr Hin. simpl in Hin.
  destruct (Hs old Hin) as [_ Hsym].
  apply (is_symbol_not_In _ Hsym). apply in_map_iff.
  exists (old, new). now split.
Qed.

Lemma blank_punctuation_settled (s : str) :
  (forall c, In c s -> settled c) -> blank_punctuation s = s.
Proof.
  unfold blank_punctuation. induction s as [|c s IH]; intros Hs;
    [reflexivity|].
  simpl. destruct (Hs c) as [Hk _]; [now left|]. rewrite Hk. f_equal.
  apply IH. intros d Hd. apply Hs. now right.
Qed.

(** Normalizing a normal form that the calls of the standard library leave
    as it is: only the loop over the words is left, and the white space
    that it may bring in. *)
Lemma normalize_text_again (x : str) :
  library_steps (normalize_text x) = normalize_text x ->
  normalize_text (normalize_text x)
  = join_sp (split (join_sp (map normalize_word
                                 (split (normalize_text x))))).
Proof.
  pose proof (normal_form_settled x) as Hsettled.
  remember (normalize_text x) as y eqn:Hy. clear Hy. intros Hlib.
  destruct y as [|c y]; [reflexivity|].
  unfold normalize_text.
  change (List.filter (fun c0 => bool_decide (combining c0 = 0))
            (nfkd (html_unescape (strip (str_lower (c :: y))))))
    with (library_steps (c :: y)).
  rewrite Hlib, (replacements_settled _ Hsettled).
  rewrite (blank_punctuation_settled _ Hsettled).
  apply (strip_collapse_spaces isspace_space).
Qed.

(** *** The words that the loop over the words yields *)

Lemma split_from_app_space (w s cur : str) :
  split_from cur (w ++ 32 :: s) = split_from cur w ++ split_from [] s.
Proof.
  revert cur. induction w as [|c w IH]; intros cur.
  - simpl. rewrite isspace_space. now destruct cur.
  - simpl. destruct (isspace c).
    + destruct cur; simpl; now rewrite IH.
    + apply IH.
Qed.

Lemma split_join_sp_concat (l : list str) :
  split (join_sp l) = concat (map split l).
Proof.
  unfold split. induction l as [|w l IH]; [reflexivity|].
  destruct l as [|w' l'].
  - simpl. now rewrite app_nil_r.
  - change (join_sp (w :: w' :: l')) with (w ++ 32 :: join_sp (w' :: l')).
    rewrite split_from_app_space, IH. reflexivity.
Qed.

Lemma split_token (w : str) : token w -> split w = [w].
Proof.
  intros Hw. apply (split_join_sp isspace_space [w]). now constructor.
Qed.

(** On a text of letters, digits and spaces [str.split()] is what it is on
    ASCII. *)
Lemma split_from_simple (e cur : str) :
  simple_text e = true ->
  split_from (L := L) cur e = split_from (L := Ascii.lib) cur e.
Proof.
  unfold simple_text. revert cur.
  induction e as [|c e IH]; intros cur He; [reflexivity|].
  simpl in He. apply andb_true_iff in He as [Hc He].
  assert (Hsp : isspace (PyLib := L) c = Ascii.space c).
  { apply orb_true_iff in Hc as [Hc | Hc].
    - rewrite (isspace_letter_or_digit _ Hc). symmetry.
      apply (isspace_letter_or_digit (PyLibLaws := ascii_lib_laws) _ Hc).
    - apply N.eqb_eq in Hc. subst. now rewrite isspace_space. }
  cbn [split_from]. rewrite Hsp.
  change (isspace (PyLib := Ascii.lib) c) with (Ascii.space c).
  destruct (Ascii.space c).
  - destruct cur; [apply IH | f_equal; apply IH]; exact He.
  - now apply IH.
Qed.

(** What [str.split()] finds in the place of a word after the loop: the
    word itself when it is no key, and else the words of an expansion,
    which are two or more or a single word that is no key. *)
Lemma split_normalize_word (w : str) :
  token w ->
  (no_table_key w = true /\ split (normalize_word w) = [w]) \/
  (no_table_key w = false /\
   exists e es, split (normalize_word w) = e :: es /\
                (es = [] -> no_table_key e = true)).
Proof.
  intros Hw. destruct (normalize_word_cases w) as [[Hk Heq] | [Hk Hexp]].
  - left. split; [exact Hk|]. rewrite Heq. now apply split_token.
  - right. split; [exact Hk|]. apply expansions_ok in Hexp.
    unfold expansion_ok in Hexp. apply andb_true_iff in Hexp as [Hsimple Hexp].
    unfold split at 1. rewrite (split_from_simple _ _ Hsimple).
    fold (split (L := Ascii.lib) (normalize_word w)).
    destruct (split (L := Ascii.lib) (normalize_word w)) as [|e [|e' es]];
      [discriminate| |].
    + exists e, []. now split.
    + exists e, (e' :: es). split; [reflexivity | discriminate].
Qed.

Lemma split_words_length (ws : list str) :
  Forall token ws ->
  (length ws <= length (concat (map split (map normalize_word ws))))%nat.
Proof.
  intros Hws. induction Hws as [|w ws Hw Hws IH]; [simpl; lia|].
  simpl. rewrite length_app.
  destruct (split_normalize_word w Hw)
    as [[_ Hs] | (_ & e & es & Hs & _)]; rewrite Hs; simpl; lia.
Qed.

(** When the words after the loop are the words before it, no word was a
    key of the tables. *)
Lemma words_without_keys (ws : list str) :
  Forall token ws ->
  concat (map split (map normalize_word ws)) = ws ->
  forallb no_table_key ws = true.
Proof.
  intros Hws. induction Hws as [|w ws Hw Hws IH]; [reflexivity|].
  simpl. intros Heq.
  destruct (split_normalize_word w Hw)
    as [[Hk Hs] | (Hk & e & es & Hs & Hone)]; rewrite Hs in Heq.
  - injection Heq as Heq. rewrite Hk. simpl. now apply IH.
  - exfalso. simpl in Heq. injection Heq as He Heq.
    pose proof (split_words_length ws Hws) as Hlen.
    apply (f_equal (@length str)) in Heq. rewrite length_app in Heq.
    destruct es as [|e' es]; [|simpl in Heq; lia].
    specialize (Hone eq_refl). congruence.
Qed.

End Idempotence.

(** C5, amended. Take a text whose normal form the calls of the standard
    library at the head of [normalize_text] leave as it is (lower-casing and
    stripping, unescaping, decomposing, removing the combining characters).
    Normalizing it twice is normalizing it once exactly when no word of its
    normal form, stripped of the punctuation at its ends, is a key of the
    table of abbreviations or of the table of Roman numerals. This holds
    for every implementation of the standard library in which the ASCII
    lower-case letters and the digits are alphanumeric and no white space
    and the space is white space. The condition on the calls of the
    standard library cannot be left out
    ([character_reference_is_decoded_after_lower]). *)
Theorem normalize_text_idempotent_iff_no_key `{L : PyLib}
    {Laws : PyLibLaws L} (x : str) :
  library_steps (normalize_text x) = normalize_text x ->
  (normalize_text (normalize_text x) = normalize_text x <->
   forallb no_table_key (split (normalize_text x)) = true).
Proof.
  intros Hlib. rewrite (normalize_text_again x Hlib).
  destruct (normalize_text_words x) as (ws & Hws & ->).
  rewrite (split_join_sp isspace_space _ Hws). split.
  - intros Heq. apply (f_equal split) in Heq.
    rewrite (split_join_sp isspace_space _ (split_tokens _)) in Heq.
    rewrite (split_join_sp isspace_space _ Hws) in Heq.
    rewrite split_join_sp_concat in Heq.
    now apply words_without_keys.
  - intros Hkeys. rewrite (normalize_word_no_key _ Hkeys).
    now rewrite (split_join_sp isspace_space _ Hws).
Qed.

(** A text with upper-case letters, a letter that is not ASCII,
    punctuation, a symbol and two abbreviations. *)
Lemma normalize_text_idempotent_iff_no_key_witness :
  normalize_text (L := Entities.lib)
    (py "  Stra" ++ 223 :: py "e  & Mt. ETNA (USA)!! ")
  = py "stra" ++ 223 :: py "e and mount etna united states of america" /\
  normalize_text (L := Entities.lib)
    (normalize_text (L := Entities.lib)
       (py "  Stra" ++ 223 :: py "e  & Mt. ETNA (USA)!! "))
  = normalize_text (L := Entities.lib)
      (py "  Stra" ++ 223 :: py "e  & Mt. ETNA (USA)!! ").
Proof.
  split; [vm_compute; reflexivity|].
  apply (normalize_text_idempotent_iff_no_key (L := Entities.lib)
           (Laws := entities_lib_laws));
    vm_compute; reflexivity.
Defined.

(** C5 as stated fails on the abbreviation of the District of Columbia:
    its normal form holds the abbreviation again and grows each time. *)
Lemma normalize_text_not_idempotent :
  normalize_text (L := Ascii.lib) (py "dc") = py "washington dc" /\
  normalize_text (L := Ascii.lib) (normalize_text (L := Ascii.lib) (py "dc"))
  = py "washington washington dc" /\
  normalize_text (L := Ascii.lib) (normalize_text (L := Ascii.lib) (py "dc"))
  <> normalize_text (L := Ascii.lib) (py "dc").
Proof.
  split; [vm_compute; reflexivity|].
  split; [vm_compute; reflexivity|].
  vm_compute. discriminate.
Qed.

(** The proviso on the calls of the standard library is needed.
    [html.unescape] is called after [lower()], so the reference to the
    letter A is decoded into an upper-case letter that stays: the normal
    form has no key of the tables, but lower-casing changes it, and
    normalizing it again gives the lower-case letter. *)
Lemma character_reference_is_decoded_after_lower :
  normalize_text (L := Entities.lib) (py "&#65;") = py "A" /\
  forallb no_table_key (split (L := Entities.lib) (py "A")) = true /\
  library_steps (L := Entities.lib) (py "A") = py "a" /\
  normalize_text (L := Entities.lib) (py "A") = py "a" /\
  normalize_text (L := Entities.lib)
    (normalize_text (L := Entities.lib) (py "&#65;"))
  <> normalize_text (L := Entities.lib) (py "&#65;").
Proof.
  split; [vm_compute; reflexivity|].
  split; [vm_compute; reflexivity|].
  split; [vm_compute; reflexivity|].
  split; [vm_compute; reflexivity|].
  vm_compute. discriminate.
Qed.

(** * Further properties *)

(** ** The verdicts of the matcher *)

Section Verdicts.
Context {L : PyLib}.

Lemma float_const_le : (0.7 <= 0.8)%Q /\ (0.7 <= 0.85)%Q /\ (0.7 <= 0.9)%Q /\
                       (0.7 <= 0.95)%Q /\ (0.7 <= 1)%Q /\ (0.95 <= 1)%Q.
Proof. repeat split; discriminate. Qed.

(** The branches of [is_match] on two texts that are not empty. *)
Lemma is_match_verdicts (user correct : str) (threshold : Q) :
  user <> [] -> correct <> [] ->
  let verdict := is_match user correct threshold in
  let q := snd (fst verdict) in
  match snd verdict with
  | empty => False
  | exact => fst (fst verdict) = true /\ q = 1%Q
  | contains => fst (fst verdict) = true /\ q = 0.95%Q
  | keywords => fst (fst verdict) = true /\ (0.7 <= q)%Q
  | fuzzy => fst (fst verdict) = true /\ (threshold <= q)%Q
  | essential => fst (fst verdict) = true /\ (0.8 <= q)%Q
  | initials => fst (fst verdict) = true /\ q = 0.9%Q
  | name_variation => fst (fst verdict) = true /\ q = 0.85%Q
  | no_match => fst (fst verdict) = false /\ (q < threshold)%Q
  end.
Proof.
  intros Hu Hc.
  destruct user as [|u user']; [congruence|].
  destruct correct as [|c correct']; [congruence|].
  unfold is_match.
  repeat match goal with
  | |- context [if ?b then _ else _] =>
      let H := fresh "Hb" in destruct b eqn:H
  end; cbn [fst snd]; try (split; reflexivity).
  all: split; [reflexivity|];
    repeat match goal with
    | H : _ && _ = true |- _ => apply andb_true_iff in H as [? ?]
    end;
    match goal with
    | H : Qle_bool ?a ?b = true |- (?a <= ?b)%Q => now apply Qle_bool_iff
    | H : Qle_bool ?a ?b = false |- (?b < ?a)%Q =>
        apply Qnot_le_lt; intros Hle; apply Qle_bool_iff in Hle; congruence
    end.
Qed.

End Verdicts.

(** X1. A verdict of [is_match] is a match exactly when its type is neither
    [empty] nor [no_match]; its type is [empty] exactly when one of the two
    texts is empty, and its confidence is then 0; and with a threshold of
    0.7 or more the confidence of a match is at least 0.7. *)
Theorem verdict_coherent `{L : PyLib} (user correct : str) (threshold : Q)
    (ok : bool) (q : Q) (type : match_type) :
  is_match user correct threshold = (ok, q, type) ->
  (ok = true <-> type <> empty /\ type <> no_match) /\
  (type = empty <-> user = [] \/ correct = []) /\
  (type = empty -> q = 0%Q) /\
  (ok = true -> (0.7 <= threshold)%Q -> (0.7 <= q)%Q).
Proof.
  intros Hv.
  destruct (decide (user = [] \/ correct = [])) as [Hempty | Hfull].
  - rewrite (is_match_empty_guard user correct threshold Hempty) in Hv.
    injection Hv as <- <- <-.
    repeat split; try tauto; try discriminate.
  - assert (Hu : user <> []) by tauto. assert (Hc : correct <> []) by tauto.
    pose proof (is_match_verdicts user correct threshold Hu Hc) as H.
    rewrite Hv in H. cbn [fst snd] in H.
    destruct float_const_le as (H1 & H2 & H3 & H4 & H5 & _).
    split; [|split; [|split]].
    + assert (Hok : ok = match type with no_match => false | _ => true end).
      { destruct type; try contradiction; tauto. }
      rewrite Hok. destruct type; try contradiction; split;
        solve [ intros _; split; discriminate | intros _; reflexivity
              | discriminate | intros [_ Hn]; congruence ].
    + split; [intros ->; contradiction | tauto].
    + intros ->. contradiction.
    + intros Hok Ht.
      destruct type; try contradiction;
        try (destruct H as [Hf _]; congruence);
        destruct H as [_ Hq]; try subst q; try assumption.
      * apply Qle_trans with threshold; assumption.
      * apply Qle_trans with 0.8%Q; assumption.
Qed.

Lemma verdict_coherent_witness :
  is_match (L := Ascii.lib) (py "Willam Shakspeare")
    (py "William Shakespeare") 0.8
  = (true, (34 # 36)%Q, fuzzy) /\
  (0.7 <= 34 # 36)%Q.
Proof.
  assert (Hv : is_match (L := Ascii.lib) (py "Willam Shakspeare")
                 (py "William Shakespeare") 0.8
               = (true, (34 # 36)%Q, fuzzy)) by (vm_compute; reflexivity).
  split; [exact Hv|].
  destruct (verdict_coherent (L := Ascii.lib) _ _ _ _ _ _ Hv)
    as (_ & _ & _ & Hq).
  apply Hq; [reflexivity | discriminate].
Defined.

(** ** The rules that do not depend on the order of the two texts *)

Import Rules.

Lemma starts_with_spec (p s : str) :
  starts_with p s = true <-> exists r, s = p ++ r.
Proof.
  revert s. induction p as [|c p IH]; intros s.
  - rewrite starts_with_nil. split; [now exists s | reflexivity].
  - destruct s as [|d s]; simpl.
    + split; [discriminate | intros [r Hr]; discriminate].
    + rewrite andb_true_iff, N.eqb_eq, IH. split.
      * intros [-> [r ->]]. now exists r.
      * intros [r [= -> ->]]. split; [reflexivity | now exists r].
Qed.

(** [str_in] is the test of Python's [in] on strings. *)
Lemma str_in_spec (p s : str) : str_in p s = true <-> occurs_in p s.
Proof.
  unfold occurs_in. induction s as [|d s IH].
  - simpl. rewrite orb_false_r, starts_with_spec. split.
    + intros [r Hr]. now exists [], r.
    + intros (l & r & Hs). symmetry in Hs.
      apply app_eq_nil in Hs as [-> Hs]. apply app_eq_nil in Hs as [-> ->].
      now exists [].
  - cbn [str_in]. rewrite orb_true_iff, starts_with_spec, IH. split.
    + intros [[r Hr] | (l & r & Hs)].
      * now exists [], r.
      * exists (d :: l), r. simpl. now rewrite Hs.
    + intros (l & r & Hs). destruct l as [|e l].
      * left. now exists r.
      * right. injection Hs as _ Hs. now exists l, r.
Qed.

Section Rules.
Context {L : PyLib}.

(** [is_match] on two texts that are not empty, by its first three
    rules. *)
Lemma is_match_first_rules (user correct : str) (threshold : Q) :
  user <> [] -> correct <> [] ->
  let user_norm := normalize_text user in
  let correct_norm := normalize_text correct in
  let user_words := extract_key_words user in
  let correct_words := extract_key_words correct in
  (user_norm = correct_norm ->
   is_match user correct threshold = (true, 1%Q, exact)) /\
  (user_norm <> correct_norm ->
   contains_rule user_norm correct_norm = true ->
   is_match user correct threshold = (true, 0.95%Q, contains)) /\
  (user_norm <> correct_norm ->
   contains_rule user_norm correct_norm = false ->
   keywords_rule user_words correct_words = true ->
   is_match user correct threshold
   = (true, quotient (size (user_words ∩ correct_words))
                     (size (user_words ∪ correct_words)), keywords)) /\
  (user_norm <> correct_norm ->
   contains_rule user_norm correct_norm = false ->
   keywords_rule user_words correct_words = false ->
   ~ order_free (snd (is_match user correct threshold))).
Proof.
  intros Hu Hc.
  destruct user as [|u user']; [congruence|].
  destruct correct as [|c correct']; [congruence|].
  unfold contains_rule, keywords_rule, is_match. cbv zeta.
  split; [|split; [|split]].
  - intros ->. now rewrite str_eqb_refl.
  - intros Hne Hin. now rewrite (str_eqb_neq _ _ Hne), Hin.
  - intros Hne Hin Hkw. now rewrite (str_eqb_neq _ _ Hne), Hin, Hkw.
  - intros Hne Hin Hkw. rewrite (str_eqb_neq _ _ Hne), Hin, Hkw.
    repeat match goal with
    | |- context [if ?b then _ else _] => destruct b
    end; cbn [snd]; intros [H | [H | H]]; discriminate.
Qed.

Lemma contains_rule_comm (a b : str) : contains_rule a b = contains_rule b a.
Proof. unfold contains_rule. apply orb_comm. Qed.

Lemma keywords_rule_comm (A B : gset str) :
  keywords_rule A B = keywords_rule B A /\
  quotient (size (A ∩ B)) (size (A ∪ B))
  = quotient (size (B ∩ A)) (size (B ∪ A)).
Proof.
  unfold keywords_rule.
  assert (Hi : A ∩ B = B ∩ A) by apply intersection_comm_L.
  assert (Hu : A ∪ B = B ∪ A) by apply union_comm_L.
  rewrite Hi, Hu.
  split; [|reflexivity].
  now rewrite (andb_comm (negb (bool_decide (A = ∅)))).
Qed.

End Rules.

(** X2. The verdicts [exact], [contains] and [keywords] do not depend on
    which of the two texts is the answer and which the reference: when
    [is_match] gives one of them, it gives the same verdict, with the same
    confidence, on the two texts exchanged. *)
Theorem first_rules_symmetric `{L : PyLib} (a b : str) (threshold q : Q)
    (type : match_type) :
  order_free type ->
  is_match a b threshold = (true, q, type) ->
  is_match b a threshold = (true, q, type).
Proof.
  intros Htype Hv.
  assert (Ha : a <> []).
  { intros ->. now rewrite is_match_empty_guard in Hv by now left. }
  assert (Hb : b <> []).
  { intros ->. now rewrite is_match_empty_guard in Hv by now right. }
  destruct (is_match_first_rules a b threshold Ha Hb) as (E1 & C1 & K1 & N1).
  destruct (is_match_first_rules b a threshold Hb Ha) as (E2 & C2 & K2 & _).
  cbv zeta in *.
  destruct (decide (normalize_text a = normalize_text b)) as [He | Hne].
  { rewrite (E1 He) in Hv. rewrite <- Hv. apply E2. congruence. }
  assert (Hne' : normalize_text b <> normalize_text a) by congruence.
  destruct (Sumbool.sumbool_of_bool
              (contains_rule (normalize_text a) (normalize_text b)))
    as [Hin | Hin].
  { rewrite (C1 Hne Hin) in Hv. rewrite <- Hv.
    apply (C2 Hne'). now rewrite contains_rule_comm. }
  assert (Hin' : contains_rule (normalize_text b) (normalize_text a) = false)
    by now rewrite contains_rule_comm.
  destruct (keywords_rule_comm (extract_key_words a) (extract_key_words b))
    as [Hk Hq].
  destruct (Sumbool.sumbool_of_bool
              (keywords_rule (extract_key_words a) (extract_key_words b)))
    as [Hkw | Hkw].
  - rewrite (K1 Hne Hin Hkw) in Hv. rewrite <- Hv, Hq.
    apply (K2 Hne' Hin'). now rewrite <- Hk.
  - exfalso. apply (N1 Hne Hin Hkw). now rewrite Hv.
Qed.

Lemma first_rules_symmetric_witness :
  is_match (L := Ascii.lib) (py "The capital is Paris") (py "Paris") 0.8
  = (true, 0.95%Q, contains) /\
  is_match (L := Ascii.lib) (py "Paris") (py "The capital is Paris") 0.8
  = (true, 0.95%Q, contains).
Proof.
  assert (Hv : is_match (L := Ascii.lib) (py "The capital is Paris")
                 (py "Paris") 0.8 = (true, 0.95%Q, contains))
    by (vm_compute; reflexivity).
  split; [exact Hv|].
  apply (first_rules_symmetric (L := Ascii.lib) _ _ _ _ _
           (or_intror (or_introl eq_refl)) Hv).
Defined.

(** X3. When the normal form of one of two non-empty texts occurs as a
    block inside the normal form of the other, the answer is accepted, as
    [exact] with confidence 1.0 or as [contains] with confidence 0.95;
    a single word of the reference, or a text that holds the reference
    among other words, is therefore a correct answer. *)
Theorem containment_is_accepted `{L : PyLib} (user correct : str)
    (threshold : Q) :
  user <> [] -> correct <> [] ->
  occurs_in (normalize_text user) (normalize_text correct) \/
  occurs_in (normalize_text correct) (normalize_text user) ->
  is_match user correct threshold = (true, 1%Q, exact) \/
  is_match user correct threshold = (true, 0.95%Q, contains).
Proof.
  intros Hu Hc Hocc.
  destruct (is_match_first_rules user correct threshold Hu Hc)
    as (E & C & _ & _). cbv zeta in *.
  destruct (decide (normalize_text user = normalize_text correct))
    as [He | Hne]; [left; now apply E|].
  right. apply (C Hne). unfold contains_rule. apply orb_true_iff.
  destruct Hocc as [H | H]; [left | right]; now apply str_in_spec.
Qed.

Lemma containment_is_accepted_witness :
  is_match (L := Ascii.lib) (py "r") (py "Paris") 0.8
  = (true, 0.95%Q, contains).
Proof.
  destruct (containment_is_accepted (L := Ascii.lib) (py "r") (py "Paris")
              0.8%Q) as [H | H]; [discriminate | discriminate | | |].
  - left. exists (py "pa"), (py "is"). vm_compute. reflexivity.
  - exfalso. revert H. vm_compute. discriminate.
  - exact H.
Defined.

(** ** Normal forms and key words *)

Lemma drop_while_head (p : N -> bool) (s : str) :
  match drop_while p s with [] => True | c :: _ => p c = false end.
Proof.
  induction s as [|c s IH]; simpl; [exact I|].
  destruct (p c) eqn:Hc; [exact IH | exact Hc].
Qed.

Lemma drop_while_suffix (p : N -> bool) (s : str) :
  exists k, s = k ++ drop_while p s.
Proof.
  induction s as [|c s [k IH]]; simpl; [now exists []|].
  destruct (p c); [|now exists []]. exists (c :: k). simpl. now f_equal.
Qed.

(** What [strip] leaves neither begins nor ends with a stripped
    character. *)
Lemma strip_by_ends (p : N -> bool) (s : str) :
  match strip_by p s with [] => True | c :: _ => p c = false end /\
  (forall u c, strip_by p s = u ++ [c] -> p c = false).
Proof.
  unfold strip_by.
  pose proof (drop_while_head p s) as Hd.
  pose proof (drop_while_head p (rev (drop_while p s))) as He.
  destruct (drop_while_suffix p (rev (drop_while p s))) as [k Hk].
  set (d := drop_while p s) in *.
  set (e := drop_while p (rev d)) in *.
  split.
  - destruct (rev e) as [|c r] eqn:Hr; [exact I|].
    assert (He' : e = rev r ++ [c]).
    { rewrite <- (rev_involutive e), Hr. reflexivity. }
    rewrite He', app_assoc in Hk.
    apply (f_equal (@rev N)) in Hk.
    rewrite rev_involutive, rev_app_distr in Hk. simpl in Hk.
    rewrite Hk in Hd. exact Hd.
  - intros u c Hr. apply (f_equal (@rev N)) in Hr.
    rewrite rev_involutive, rev_app_distr in Hr. simpl in Hr.
    rewrite Hr in He. exact He.
Qed.

(** X4. A normal form is made of words that are not empty and hold no white
    space, with one space between two of them: splitting it and joining the
    words gives it back, and stripping it changes nothing. *)
Theorem normal_form_is_spaced_words `{L : PyLib} (x : str) :
  isspace 32 = true ->
  Forall token (split (normalize_text x)) /\
  join_sp (split (normalize_text x)) = normalize_text x /\
  strip (normalize_text x) = normalize_text x.
Proof.
  intros Hsp.
  assert (Hws : exists ws, Forall token ws /\ normalize_text x = join_sp ws).
  { destruct x as [|c x]; [exists []; now split|].
    unfold normalize_text. eexists. split; [apply split_tokens|].
    apply (strip_collapse_spaces Hsp). }
  destruct Hws as (ws & Hws & ->).
  rewrite (split_join_sp Hsp _ Hws).
  split; [exact Hws|]. split; [reflexivity|]. now apply strip_join_sp.
Qed.

Lemma normal_form_is_spaced_words_witness :
  split (L := Ascii.lib)
    (normalize_text (L := Ascii.lib) (py "  G.H.   Hardy (the USA) "))
  = [py "g.h."; py "hardy"; py "the"; py "united"; py "states"; py "of";
     py "america"] /\
  strip (L := Ascii.lib)
    (normalize_text (L := Ascii.lib) (py "  G.H.   Hardy (the USA) "))
  = normalize_text (L := Ascii.lib) (py "  G.H.   Hardy (the USA) ").
Proof.
  split; [vm_compute; reflexivity|].
  apply (normal_form_is_spaced_words (L := Ascii.lib)). reflexivity.
Defined.

(** X5. The key words of a text are exactly the words of its normal form,
    stripped of the punctuation at their ends, that are longer than one
    character and are no stop words; a key word neither begins nor ends
    with one of the stripped punctuation characters. *)
Theorem key_words_characterized `{L : PyLib} (text w : str) :
  (w ∈ extract_key_words text <->
   exists word, In word (split (normalize_text text)) /\ w = clean word /\
                (1 < length w)%nat /\ w ∉ stop_words) /\
  (w ∈ extract_key_words text ->
   match w with [] => False | c :: _ => is_strip_char c = false end /\
   is_strip_char (List.last w 0) = false).
Proof.
  assert (Hchar : w ∈ extract_key_words text <->
    exists word, In word (split (normalize_text text)) /\ w = clean word /\
                 (1 < length w)%nat /\ w ∉ stop_words).
  { unfold extract_key_words. rewrite elem_of_list_to_set, list_elem_of_In.
    rewrite in_map_iff. split.
    - intros (word & <- & Hin). apply filter_In in Hin as [Hin Hkey].
      unfold is_key_word in Hkey. apply andb_true_iff in Hkey as [Hlen Hstop].
      exists word. split; [exact Hin|]. split; [reflexivity|].
      split; [now apply Nat.ltb_lt|].
      apply negb_true_iff, bool_decide_eq_false in Hstop. exact Hstop.
    - intros (word & Hin & -> & Hlen & Hstop). exists word.
      split; [reflexivity|]. apply filter_In. split; [exact Hin|].
      unfold is_key_word. apply andb_true_iff. split; [now apply Nat.ltb_lt|].
      now apply negb_true_iff, bool_decide_eq_false. }
  split; [exact Hchar|].
  intros Hin. apply Hchar in Hin as (word & _ & -> & Hlen & _).
  destruct (strip_by_ends is_strip_char word) as [Hhead Hlast].
  fold (clean word) in Hhead, Hlast.
  destruct (clean word) as [|c w'] eqn:Hw; [simpl in Hlen; lia|].
  split; [exact Hhead|].
  destruct (exists_last (l := c :: w')) as (u & d & Hu); [discriminate|].
  rewrite Hu, last_last. now apply (Hlast u d).
Qed.

Lemma key_words_characterized_witness :
  py "hardy" ∈ extract_key_words (L := Ascii.lib) (py "(The) G.H. Hardy!") /\
  is_strip_char (List.last (py "hardy") 0) = false.
Proof.
  assert (Hin : py "hardy"
                ∈ extract_key_words (L := Ascii.lib) (py "(The) G.H. Hardy!")).
  { apply (proj1 (key_words_characterized (L := Ascii.lib) _ _)).
    exists (py "hardy"). split; [vm_compute; tauto|].
    split; [reflexivity|]. split; [simpl; lia|].
    apply (bool_decide_eq_false_1 (py "hardy" ∈ stop_words)).
    vm_compute. reflexivity. }
  split; [exact Hin|].
  apply (proj2 (key_words_characterized (L := Ascii.lib) _ _) Hin).
Defined.

(** ** The report, again *)

Import Report.

Lemma descending_filter (P : Score -> bool) (l : list Score) :
  descending l -> descending (List.filter P l).
Proof.
  unfold descending. intros Hl. induction Hl as [|x l Hl IH Hx]; simpl.
  - constructor.
  - destruct (P x); [|exact IH]. constructor; [exact IH|].
    clear -Hx. induction Hx as [|y l Hy Hx IHx]; simpl; [constructor|].
    destruct (P y); [now constructor | exact IHx].
Qed.

Lemma descending_firstn (n : nat) (l : list Score) :
  descending l -> descending (firstn n l).
Proof.
  unfold descending. intros Hl. revert n.
  induction Hl as [|x l Hl IH Hx]; intros n.
  - rewrite firstn_nil. constructor.
  - destruct n; [constructor|]. simpl. constructor; [apply IH|].
    clear -Hx. revert n. induction Hx as [|y l Hy Hx IHx]; intros n.
    + rewrite firstn_nil. constructor.
    + destruct n; [constructor|]. simpl. now constructor.
Qed.

Lemma In_firstn (n : nat) (l : list Score) (x : Score) :
  In x (firstn n l) -> In x l.
Proof.
  revert n. induction l as [|y l IH]; intros n Hin.
  - now rewrite firstn_nil in Hin.
  - destruct n; [destruct Hin|]. simpl in Hin.
    destruct Hin as [-> | Hin]; [now left | right; eauto].
Qed.

(** X6. The report of the top matching answers is made of all stored
    answers, scored against the correct answer: sorted by descending
    confidence with answers of equal confidence in their order of arrival,
    cut down to those of confidence above 0.3, and then to the first
    [limit]. So it has at most [limit] entries, each above 0.3, in
    descending order, and each the score of a stored answer. *)
Theorem top_matches_report `{L : PyLib} (answers : list Answer)
    (correct : str) (limit : nat) :
  let scores := map (score_of correct) answers in
  let report := get_top_matching_answers answers correct limit in
  report = firstn limit (List.filter shown (sort_by_confidence scores)) /\
  Permutation (sort_by_confidence scores) scores /\
  descending (sort_by_confidence scores) /\
  (forall q, of_confidence q (sort_by_confidence scores)
             = of_confidence q scores) /\
  (length report <= limit)%nat /\
  Forall (fun s => (0.3 < confidence s)%Q) report /\
  descending report /\
  (forall s, In s report -> exists a, In a answers /\ s = score_of correct a).
Proof.
  intros scores report.
  assert (Hreport : report
    = firstn limit (List.filter shown (sort_by_confidence scores)))
    by apply get_top_matching_answers_ranking.
  split; [exact Hreport|].
  split; [apply sort_by_confidence_perm|].
  split; [apply sort_by_confidence_descending|].
  split; [intros q; apply sort_by_confidence_stable|].
  rewrite Hreport. split; [apply firstn_le_length|]. split; [|split].
  - apply List.Forall_forall. intros s Hs. apply In_firstn, filter_In in Hs.
    now apply float_lt_iff.
  - apply descending_firstn, descending_filter,
      sort_by_confidence_descending.
  - intros s Hs. apply In_firstn, filter_In in Hs. destruct Hs as [Hs _].
    apply (Permutation_in _ (sort_by_confidence_perm scores)) in Hs.
    apply in_map_iff in Hs as (a & <- & Ha). now exists a.
Qed.

Lemma top_matches_report_witness :
  let answers :=
    [mkAnswer (py "alice") (py "London") 3;
     mkAnswer (py "dave") (py "Parris") 4;
     mkAnswer (py "erin") (py "Pariss France") 5;
     mkAnswer (py "bob") (py "paris!") 6] in
  map score_username
    (get_top_matching_answers (L := Ascii.lib) answers (py "Paris") 3)
  = [py "bob"; py "erin"; py "dave"] /\
  Forall (fun s => (0.3 < confidence s)%Q)
    (get_top_matching_answers (L := Ascii.lib) answers (py "Paris") 3).
Proof.
  intros answers. split; [vm_compute; reflexivity|].
  apply (top_matches_report (L := Ascii.lib) answers (py "Paris") 3).
Defined.

(** ** The round, again *)

Import Frame.

Section Round.
Context {L : PyLib}.
Variable me : str.

(** The confidence of the verdicts of [is_correct_answer]. *)
Lemma is_correct_answer_bounds (user correct : str) :
  let verdict := is_correct_answer user correct in
  (fst (fst verdict) = true ->
   (0.7 <= snd (fst verdict))%Q /\
   (snd verdict <> keywords -> (0.8 <= snd (fst verdict))%Q)) /\
  (fst (fst verdict) = false -> (snd (fst verdict) < 0.8)%Q).
Proof.
  unfold is_correct_answer. cbv zeta.
  destruct (decide (user = [] \/ correct = [])) as [Hempty | Hfull].
  - rewrite (is_match_empty_guard user correct 0.8%Q Hempty). cbn [fst snd].
    split; [discriminate | reflexivity].
  - assert (Hu : user <> []) by tauto. assert (Hc : correct <> []) by tauto.
    pose proof (is_match_verdicts user correct 0.8%Q Hu Hc) as H.
    cbv zeta in H.
    destruct (is_match user correct 0.8) as [[ok q] type]. cbn [fst snd] in *.
    destruct type; try contradiction; destruct H as [-> Hq];
      (split; intros Hok); try discriminate Hok; try exact Hq.
    all: split; [|intros Hk]; try subst q; try assumption; try congruence;
      try (apply Qle_trans with 0.8%Q; [discriminate | assumption]);
      discriminate.
Qed.

(** The body of the loop on a submission that is accepted, in full. *)
Lemma handle_comment_accepted (c : Comment) (st : Bot) :
  comment_id c ∉ processed_comments st ->
  author c <> Some me ->
  accepted st c = true ->
  exists cel,
    handle_comment me c st
    = (mkBot (current_question st) (current_answer st)
             (question_start_time st) false
             (update_user_stats (name_of c) true
                (read_at c - question_start_time st) (read_at c)
                (user_stats st))
             ({[comment_id c]} ∪ processed_comments st)
             (question_answers st
              ++ [mkAnswer (name_of c) (body c)
                    (read_at c - question_start_time st)])
             (outbox st ++ [cel]), true) /\
    points_earned cel
    = calculate_points (read_at c - question_start_time st) /\
    current_streak cel
    = streak (default (new_user (name_of c) 0)
                (update_user_stats (name_of c) true
                   (read_at c - question_start_time st) (read_at c)
                   (user_stats st) !! name_of c)) /\
    top_matches cel
    = get_top_matching_answers
        (question_answers st
         ++ [mkAnswer (name_of c) (body c)
               (read_at c - question_start_time st)])
        (current_answer st) 3.
Proof.
  intros Hseen Hown Hacc. unfold handle_comment.
  rewrite (bool_decide_eq_false_2 _ Hseen), (bool_decide_eq_false_2 _ Hown).
  unfold accepted in Hacc.
  destruct (is_correct_answer _ _) as [[correct ?] ?]. simpl in Hacc. subst.
  eexists. split; [reflexivity|]. repeat split; reflexivity.
Qed.

Lemma handle_comment_rejected (c : Comment) (st st' : Bot) :
  passed_over me st c ->
  handle_comment me c st = (st', false) ->
  rejected_so_far st -> rejected_so_far st'.
Proof.
  intros Hp Hh Hrej. unfold handle_comment in Hh.
  case_bool_decide as Hseen; [now injection Hh as <-|].
  case_bool_decide as Hown; [now injection Hh as <-|].
  destruct Hp as [Hp | [Hp | Hp]]; [contradiction | contradiction |].
  unfold accepted in Hp.
  destruct (is_correct_answer (body c) (current_answer st))
    as [[correct q] type] eqn:Hv.
  simpl in Hp. subst correct. injection Hh as <-.
  intros a Ha. simpl in Ha |- *. apply in_app_or in Ha as [Ha | [<- | []]].
  - now apply Hrej.
  - simpl. now rewrite Hv.
Qed.

(** The loop over comments none of which can win, as a function of the
    bot. *)
Lemma past_passed (pre : list Comment) (st : Bot) :
  Forall (passed_over me st) pre ->
  (forall rest,
     process_comments me (pre ++ rest) st
     = process_comments me rest (past me pre st)) /\
  current_question (past me pre st) = current_question st /\
  current_answer (past me pre st) = current_answer st /\
  question_start_time (past me pre st) = question_start_time st /\
  waiting_for_answer (past me pre st) = waiting_for_answer st /\
  outbox (past me pre st) = outbox st /\
  (forall i, i ∈ processed_comments (past me pre st) ->
     i ∈ processed_comments st \/ In i (map comment_id pre)) /\
  (rejected_so_far st -> rejected_so_far (past me pre st)).
Proof.
  intros Hpre.
  destruct (process_comments_passed me pre st Hpre)
    as (st' & Hrun & Hq & Ha & Ht & Hw & Hout & Hids).
  assert (Hst' : past me pre st = st').
  { unfold past. rewrite <- (app_nil_r pre) at 1. now rewrite Hrun. }
  rewrite Hst'. repeat split; try assumption.
  rewrite <- Hst'. clear st' Hrun Hq Ha Ht Hw Hout Hids Hst'.
  unfold past. revert st Hpre.
  induction pre as [|p pre IH]; intros st Hpre Hrej; [exact Hrej|].
  inversion Hpre as [|? ? Hp Hrest]; subst.
  destruct (handle_comment_passed me p st Hp) as (st1 & Hh & _ & Hsub & _).
  destruct (handle_comment_frame me _ _ _ _ Hh) as (_ & Ha & _ & _).
  simpl. rewrite Hh. apply IH.
  - eapply Forall_impl; [exact Hrest|].
    intros c. now apply passed_over_mono.
  - now apply (handle_comment_rejected p st).
Qed.

(** The entry of greatest confidence comes first in the sorted list. *)
Lemma sort_by_confidence_head (x : Score) (l : list Score) :
  In x l ->
  (forall y, In y l -> y = x \/ (confidence y < confidence x)%Q) ->
  exists rest, sort_by_confidence l = x :: rest.
Proof.
  intros Hx Hmax.
  pose proof (sort_by_confidence_perm l) as Hperm.
  pose proof (sort_by_confidence_descending l) as Hdesc.
  destruct (sort_by_confidence l) as [|h t].
  - apply Permutation_nil in Hperm. subst. destruct Hx.
  - exists t. f_equal.
    assert (Hh : In h l) by (apply (Permutation_in _ Hperm); now left).
    destruct (Hmax h Hh) as [Heq | Hlt]; [exact Heq|].
    apply (Permutation_in _ (Permutation_sym Hperm)) in Hx.
    destruct Hx as [Heq | Hx]; [exact Heq|].
    inversion Hdesc as [|? ? _ Hall]; subst.
    rewrite List.Forall_forall in Hall. specialize (Hall x Hx). simpl in Hall.
    exfalso. apply (Qlt_not_le _ _ Hlt Hall).
Qed.

End Round.

Lemma confidence_score_of `{L : PyLib} (correct : str) (a : Answer) :
  confidence (score_of correct a)
  = snd (fst (is_correct_answer (answer a) correct)).
Proof.
  unfold score_of, is_correct_answer.
  now destruct (is_match (answer a) correct 0.8) as [[? ?] ?].
Qed.

(** X7. In a round in which no stored answer is an accepted one, as it is
    from the posting of the question on, the report posted with the
    celebration is never empty and has at most three entries; and unless
    the winning verdict is [keywords], its first entry is the winner's own
    answer. *)
Theorem report_starts_with_the_winner `{L : PyLib} (me : str) (st : Bot)
    (pre : list Comment) (c : Comment) (post : list Comment) :
  round_open st ->
  rejected_so_far st ->
  Forall (passed_over me st) pre ->
  submitted me st pre c ->
  accepted st c = true ->
  exists cel,
    outbox (monitor_comments me (pre ++ c :: post) st) = outbox st ++ [cel] /\
    top_matches cel <> [] /\
    (length (top_matches cel) <= 3)%nat /\
    (snd (is_correct_answer (body c) (current_answer st)) <> keywords ->
     exists rest, top_matches cel = score_of_comment st c :: rest).
Proof.
  intros [Hq Hw] Hrej Hpre (Hseen & Hdup & Hown) Hacc.
  destruct (past_passed me pre st Hpre)
    as (Hrun & Hq1 & Ha1 & Ht1 & Hw1 & Hout1 & Hids & Hrej1).
  specialize (Hrej1 Hrej).
  destruct (handle_comment_accepted me c (past me pre st))
    as (cel & Hh & _ & _ & Htop).
  { intros Hin. destruct (Hids _ Hin); contradiction. }
  { exact Hown. }
  { unfold accepted in *. now rewrite Ha1. }
  exists cel. split.
  { unfold monitor_comments. destruct (current_question st); [|congruence].
    rewrite Hw. simpl negb. cbv iota. rewrite Hrun. simpl. rewrite Hh.
    simpl. now rewrite Hout1. }
  rewrite Htop, Ha1, Ht1, get_top_matching_answers_ranking.
  fold (score_of_comment st c). rewrite map_app. cbn [map].
  fold (score_of_comment st c).
  set (x := score_of_comment st c).
  set (losers := map (score_of (current_answer st))
                     (question_answers (past me pre st))).
  assert (Hconf : confidence x
                  = snd (fst (is_correct_answer (body c) (current_answer st))))
    by apply confidence_score_of.
  destruct (is_correct_answer_bounds (body c) (current_answer st))
    as [Hwin _]. cbv zeta in Hwin.
  destruct (Hwin Hacc) as [H07 H08]. clear Hwin.
  assert (Hshown : shown x = true).
  { apply float_lt_iff. rewrite Hconf.
    apply Qlt_le_trans with 0.7%Q; [reflexivity | exact H07]. }
  assert (Hx : In x (losers ++ [x])) by (apply in_or_app; right; now left).
  assert (Hin : In x (List.filter shown (sort_by_confidence (losers ++ [x])))).
  { apply filter_In. split; [|exact Hshown].
    apply (Permutation_in _
             (Permutation_sym (sort_by_confidence_perm (losers ++ [x])))).
    exact Hx. }
  split; [|split].
  - destruct (List.filter shown (sort_by_confidence (losers ++ [x])));
      [destruct Hin | discriminate].
  - apply firstn_le_length.
  - intros Hkw. specialize (H08 Hkw).
    destruct (sort_by_confidence_head x (losers ++ [x]) Hx) as [rest Hsort].
    { intros y Hy. apply in_app_or in Hy as [Hy | [<- | []]]; [|now left].
      right. apply in_map_iff in Hy as (a & <- & Ha).
      rewrite confidence_score_of, Hconf.
      apply Qlt_le_trans with 0.8%Q; [|exact H08].
      apply (is_correct_answer_bounds (answer a) (current_answer st)).
      rewrite <- Ha1. now apply Hrej1. }
    rewrite Hsort. cbn [List.filter]. rewrite Hshown. cbn [firstn].
    now eexists.
Qed.

Lemma report_starts_with_the_winner_witness :
  exists cel,
    outbox (monitor_comments (L := Ascii.lib) Paris.me
              [Paris.alice; Paris.own; Paris.bob; Paris.carol] Paris.start)
    = [cel] /\
    exists rest,
      top_matches cel
      = score_of_comment (L := Ascii.lib) Paris.start Paris.bob :: rest.
Proof.
  destruct (report_starts_with_the_winner (L := Ascii.lib) Paris.me
              Paris.start [Paris.alice; Paris.own] Paris.bob [Paris.carol])
    as (cel & Hout & _ & _ & Hhead).
  - split; [discriminate | reflexivity].
  - intros a [].
  - constructor; [|constructor; [|constructor]].
    + right. right. vm_compute. reflexivity.
    + right. left. reflexivity.
  - split; [|split].
    + apply not_elem_of_empty.
    + simpl. intros [H | [H | []]]; discriminate.
    + discriminate.
  - vm_compute. reflexivity.
  - exists cel. split; [exact Hout|]. apply Hhead. vm_compute. discriminate.
Defined.

Section Polls.
Context {L : PyLib}.
Variable me : str.

Lemma update_user_stats_dom (name : str) (correct : bool) (rt now : Q)
    (stats : gmap str UserStats) :
  dom (update_user_stats name correct rt now stats) = {[name]} ∪ dom stats.
Proof. unfold update_user_stats. apply dom_insert_L. Qed.

(** What the body of the loop may change. *)
Lemma handle_comment_adds (c : Comment) (st st' : Bot) (stop : bool) :
  handle_comment me c st = (st', stop) ->
  comment_id c ∈ processed_comments st' /\
  processed_comments st ⊆ processed_comments st' /\
  (exists new, question_answers st' = question_answers st ++ new /\
               (length new <= 1)%nat) /\
  (if stop then exists cel, outbox st' = outbox st ++ [cel]
   else outbox st' = outbox st) /\
  dom (user_stats st) ⊆ dom (user_stats st').
Proof.
  unfold handle_comment.
  case_bool_decide as Hseen.
  { intros [= <- <-]. split; [exact Hseen|]. split; [set_solver|].
    split; [exists []; rewrite app_nil_r; split; [reflexivity | simpl; lia]|].
    split; [reflexivity | set_solver]. }
  case_bool_decide as Hown.
  { intros [= <- <-]. simpl. split; [set_solver|]. split; [set_solver|].
    split; [exists []; rewrite app_nil_r; split; [reflexivity | simpl; lia]|].
    split; [reflexivity | set_solver]. }
  destruct (is_correct_answer _ _) as [[[] ?] ?];
    intros [= <- <-]; simpl;
    (split; [set_solver|]); (split; [set_solver|]);
    (split; [eexists; split; [reflexivity | simpl; lia]|]);
    (split; [try reflexivity; now eexists|]);
    rewrite update_user_stats_dom; set_solver.
Qed.

Lemma process_comments_adds (cs : list Comment) (st : Bot) :
  processed_comments st ⊆ processed_comments (process_comments me cs st) /\
  (exists new,
     question_answers (process_comments me cs st)
     = question_answers st ++ new /\ (length new <= length cs)%nat) /\
  (outbox (process_comments me cs st) = outbox st /\
   waiting_for_answer (process_comments me cs st) = waiting_for_answer st \/
   exists cel,
     outbox (process_comments me cs st) = outbox st ++ [cel] /\
     waiting_for_answer (process_comments me cs st) = false) /\
  dom (user_stats st) ⊆ dom (user_stats (process_comments me cs st)) /\
  (waiting_for_answer (process_comments me cs st) = false \/
   forall c, In c cs ->
     comment_id c ∈ processed_comments (process_comments me cs st)).
Proof.
  revert st. induction cs as [|c cs IH]; intros st.
  - simpl. split; [set_solver|].
    split; [exists []; now rewrite app_nil_r|].
    split; [now left|]. split; [set_solver|]. right. intros c [].
  - simpl. destruct (handle_comment me c st) as [st1 stop] eqn:Hh.
    destruct (handle_comment_adds _ _ _ _ Hh)
      as (Hc & Hsub & (new & Hnew & Hlen) & Hout & Hdom).
    destruct (handle_comment_frame me _ _ _ _ Hh) as (_ & _ & _ & Hw).
    destruct stop.
    + split; [exact Hsub|].
      split; [exists new; split; [exact Hnew | simpl; lia]|].
      split; [right; destruct Hout as [cel Hout]; now exists cel|].
      split; [exact Hdom | now left].
    + destruct (IH st1) as (Hsub' & (new' & Hnew' & Hlen') & Hout' & Hdom'
                            & Hall).
      split; [now transitivity (processed_comments st1)|]. split.
      { exists (new ++ new'). rewrite Hnew', Hnew, <- app_assoc.
        split; [reflexivity|]. rewrite length_app. simpl. lia. }
      split.
      { destruct Hout' as [[Ho Hw'] | (cel & Ho & Hw')].
        - left. split; congruence.
        - right. exists cel. split; congruence. }
      split; [now transitivity (dom (user_stats st1))|].
      destruct Hall as [Hclosed | Hall]; [now left|]. right.
      intros d [<- | Hd]; [now apply Hsub' | now apply Hall].
Qed.


Lemma process_comments_question (cs : list Comment) (st : Bot) :
  current_question (process_comments me cs st) = current_question st /\
  current_answer (process_comments me cs st) = current_answer st /\
  question_start_time (process_comments me cs st) = question_start_time st.
Proof.
  revert st. induction cs as [|c cs IH]; intros st; [now repeat split|].
  simpl. destruct (handle_comment me c st) as [st1 stop] eqn:Hh.
  destruct (handle_comment_frame me _ _ _ _ Hh) as (Hq & Ha & Ht & _).
  destruct stop; [now repeat split|].
  destruct (IH st1) as (Hq' & Ha' & Ht'). repeat split; congruence.
Qed.

End Polls.

(** X8. A call of [monitor_comments] loses nothing of the bot: it
    leaves the question, its answer and its starting time alone, forgets no
    handled comment, keeps the stored answers and appends at most one for
    each comment read, keeps every player on record, and either celebrates
    nobody and leaves the round as open or closed as it was, or posts
    exactly one celebration and closes a round that was open. The replies
    that the loop posts at random to wrong answers are no celebrations and
    no part of this statement. *)
Theorem monitor_comments_only_adds `{L : PyLib} (me : str)
    (comments : list Comment) (st : Bot) :
  let st' := monitor_comments me comments st in
  current_question st' = current_question st /\
  current_answer st' = current_answer st /\
  question_start_time st' = question_start_time st /\
  processed_comments st ⊆ processed_comments st' /\
  (exists new, question_answers st' = question_answers st ++ new /\
               (length new <= length comments)%nat) /\
  dom (user_stats st) ⊆ dom (user_stats st') /\
  (outbox st' = outbox st /\
   waiting_for_answer st' = waiting_for_answer st \/
   exists cel, outbox st' = outbox st ++ [cel] /\
               waiting_for_answer st = true /\
               waiting_for_answer st' = false).
Proof.
  unfold monitor_comments. cbv zeta.
  assert (Hsame :
    current_question st = current_question st /\
    current_answer st = current_answer st /\
    question_start_time st = question_start_time st /\
    processed_comments st ⊆ processed_comments st /\
    (exists new, question_answers st = question_answers st ++ new /\
                 (length new <= length comments)%nat) /\
    dom (user_stats st) ⊆ dom (user_stats st) /\
    (outbox st = outbox st /\
     waiting_for_answer st = waiting_for_answer st \/
     exists cel, outbox st = outbox st ++ [cel] /\
                 waiting_for_answer st = true /\
                 waiting_for_answer st = false)).
  { split; [reflexivity|]. split; [reflexivity|]. split; [reflexivity|].
    split; [reflexivity|].
    split; [exists []; rewrite app_nil_r; split; [reflexivity | simpl; lia]|].
    split; [reflexivity | left; split; reflexivity]. }
  destruct (current_question st) eqn:Hq; [|rewrite ?Hq; exact Hsame].
  destruct (waiting_for_answer st) eqn:Hw; simpl;
    [|rewrite ?Hq, ?Hw; exact Hsame].
  clear Hsame.
  destruct (process_comments_question me comments st) as (Hq' & Ha' & Ht').
  destruct (process_comments_adds me comments st)
    as (Hsub & Hnew & Hout & Hdom & _).
  rewrite Hq', Hq. repeat split; try assumption.
  destruct Hout as [[Ho Hw'] | (cel & Ho & Hw')].
  - left. split; congruence.
  - right. exists cel. now repeat split.
Qed.


(** ** What a player is credited with *)

Lemma update_user_stats_fields (name : str) (correct : bool) (rt now : Q)
    (stats : gmap str UserStats) :
  let before := stats_before name now stats in
  exists user,
    update_user_stats name correct rt now stats !! name = Some user /\
    username user = username before /\
    total_questions user = (total_questions before + 1)%Z /\
    last_active user = Some now /\
    max_streak user =
      (if correct then Z.max (max_streak before) (streak before + 1)
       else max_streak before) /\
    streak user = (if correct then streak before + 1 else 0)%Z /\
    correct_answers user =
      (if correct then correct_answers before + 1
       else correct_answers before)%Z /\
    total_score user =
      (if correct then total_score before + calculate_points rt
       else total_score before)%Z /\
    daily_score user =
      (if correct then daily_score before + calculate_points rt
       else daily_score before)%Z /\
    weekly_score user =
      (if correct then weekly_score before + calculate_points rt
       else weekly_score before)%Z /\
    monthly_score user =
      (if correct then monthly_score before + calculate_points rt
       else monthly_score before)%Z.
Proof.
  unfold update_user_stats, stats_before. cbv zeta.
  eexists. split; [apply lookup_insert_eq|].
  destruct correct; repeat split; reflexivity.
Qed.

(** X10. The celebration tells the truth: the points it announces are the
    points added to the winner's score, between 11 and 20, and the streak
    it announces is the winner's streak after the win, one more than
    before; the win is also counted among the winner's correct answers. *)
Theorem celebration_is_truthful `{L : PyLib} (me : str) (st : Bot)
    (pre : list Comment) (c : Comment) (post : list Comment) :
  round_open st ->
  Forall (passed_over me st) pre ->
  submitted me st pre c ->
  accepted st c = true ->
  let before :=
    stats_before (name_of c) (read_at c) (user_stats (past me pre st)) in
  let final := monitor_comments me (pre ++ c :: post) st in
  exists cel user,
    outbox final = outbox st ++ [cel] /\
    user_stats final !! name_of c = Some user /\
    total_score user = (total_score before + points_earned cel)%Z /\
    (11 <= points_earned cel <= 20)%Z /\
    correct_answers user = (correct_answers before + 1)%Z /\
    streak user = (streak before + 1)%Z /\
    current_streak cel = streak user.
Proof.
  intros [Hq Hw] Hpre (Hseen & Hdup & Hown) Hacc before final.
  destruct (past_passed me pre st Hpre)
    as (Hrun & Hq1 & Ha1 & Ht1 & Hw1 & Hout1 & Hids & _).
  destruct (handle_comment_accepted me c (past me pre st))
    as (cel & Hh & Hpts & Hstreak & _).
  { intros Hin. destruct (Hids _ Hin); contradiction. }
  { exact Hown. }
  { unfold accepted in *. now rewrite Ha1. }
  assert (Hfinal : final = fst (handle_comment me c (past me pre st))).
  { unfold final, monitor_comments.
    destruct (current_question st); [|congruence].
    rewrite Hw. simpl negb. cbv iota. rewrite Hrun. simpl. now rewrite Hh. }
  rewrite Hh in Hfinal. cbn [fst] in Hfinal.
  destruct (update_user_stats_fields (name_of c) true
              (read_at c - question_start_time (past me pre st))
              (read_at c) (user_stats (past me pre st)))
    as (user & Hlook & _ & _ & _ & _ & Hs & Hc & Hscore & _).
  fold before in Hs, Hc, Hscore.
  exists cel, user. rewrite Hfinal. cbn [outbox user_stats].
  rewrite Hout1, Hpts. rewrite Hlook in Hstreak. cbn [default] in Hstreak.
  repeat split; try assumption.
  - tiers; lia.
  - tiers; lia.
Qed.

Lemma celebration_is_truthful_witness :
  exists cel user,
    outbox (monitor_comments (L := Ascii.lib) Paris.me
              [Paris.alice; Paris.own; Paris.bob; Paris.carol] Paris.start)
    = [cel] /\
    user_stats (monitor_comments (L := Ascii.lib) Paris.me
                  [Paris.alice; Paris.own; Paris.bob; Paris.carol]
                  Paris.start) !! py "bob" = Some user /\
    total_score user = points_earned cel /\ current_streak cel = 1%Z.
Proof.
  destruct (celebration_is_truthful (L := Ascii.lib) Paris.me
              Paris.start [Paris.alice; Paris.own] Paris.bob [Paris.carol])
    as (cel & user & Hout & Hlook & Hscore & _ & _ & Hstreak & Hcel).
  - split; [discriminate | reflexivity].
  - constructor; [|constructor; [|constructor]].
    + right. right. vm_compute. reflexivity.
    + right. left. reflexivity.
  - split; [|split].
    + apply not_elem_of_empty.
    + simpl. intros [H | [H | []]]; discriminate.
    + discriminate.
  - vm_compute. reflexivity.
  - exists cel, user. split; [exact Hout|]. split; [exact Hlook|].
    split; [rewrite Hscore | rewrite Hcel, Hstreak]; vm_compute; reflexivity.
Defined.

Import TriviaLoop Accounts.

Lemma calculate_points_bounds (t : Q) : (11 <= calculate_points t <= 20)%Z.
Proof. tiers; lia. Qed.

Lemma balanced_new_user (name : str) (now : Q) :
  balanced name (new_user name now).
Proof. unfold balanced. simpl. split; [reflexivity | lia]. Qed.

Lemma all_balanced_update (u : Update) (stats : gmap str UserStats) :
  all_balanced stats -> all_balanced (apply_update stats u).
Proof.
  intros Hinv name user Hlook. unfold apply_update in Hlook.
  destruct (decide (who u = name)) as [<-|Hne].
  - destruct (update_user_stats_fields (who u) (won u) (after u) (at_time u)
                stats)
      as (user' & Hl & Hn & Hq & _ & Hm & Hs & Hc & Ht & Hd & Hw & Hmo).
    rewrite Hl in Hlook. injection Hlook as <-.
    assert (Hold : balanced (who u) (stats_before (who u) (at_time u) stats)).
    { unfold stats_before. destruct (stats !! who u) as [old|] eqn:Hold.
      - apply (Hinv _ _ Hold).
      - apply balanced_new_user. }
    pose proof (calculate_points_bounds (after u)) as Hp.
    unfold balanced in *. rewrite Hn, Hq, Hm, Hs, Hc, Ht, Hd, Hw, Hmo.
    destruct Hold as (Hname & ? & ? & ? & ? & ? & ?).
    split; [exact Hname|]. destruct (won u); lia.
  - rewrite update_user_stats_other in Hlook by assumption.
    apply (Hinv _ _ Hlook).
Qed.

Lemma all_balanced_event (e : Event) (stats : gmap str UserStats) :
  all_balanced stats -> all_balanced (apply_event stats e).
Proof.
  intros Hinv. destruct e as [u | | |]; simpl.
  - now apply all_balanced_update.
  - intros name user Hlook. unfold reset_daily_stats in Hlook.
    rewrite lookup_fmap in Hlook.
    destruct (stats !! name) as [old|] eqn:Hold; [|discriminate].
    injection Hlook as <-. specialize (Hinv _ _ Hold).
    unfold balanced in *. simpl. split; [tauto | lia].
  - intros name user Hlook. unfold reset_weekly_stats in Hlook.
    rewrite lookup_fmap in Hlook.
    destruct (stats !! name) as [old|] eqn:Hold; [|discriminate].
    injection Hlook as <-. specialize (Hinv _ _ Hold).
    unfold balanced in *. simpl. split; [tauto | lia].
  - intros name user Hlook. unfold reset_monthly_stats in Hlook.
    rewrite lookup_fmap in Hlook.
    destruct (stats !! name) as [old|] eqn:Hold; [|discriminate].
    injection Hlook as <-. specialize (Hinv _ _ Hold).
    unfold balanced in *. simpl. split; [tauto | lia].
Qed.

Lemma all_balanced_events (events : list Event) (stats : gmap str UserStats) :
  all_balanced stats -> all_balanced (apply_events events stats).
Proof.
  revert stats. induction events as [|e events IH]; intros stats Hinv.
  - exact Hinv.
  - simpl. apply IH. now apply all_balanced_event.
Qed.

(** X11. Whatever the sequence of answers and of daily, weekly and monthly
    resets, starting without players, the books of every player are in
    order: the record is filed under the player's name; the streak lies
    between 0 and the longest streak, which is at most the number of
    correct answers, which is at most the number of answers; the score lies
    between 11 and 20 times the number of correct answers; and each of the
    three score buckets lies between 0 and the score. *)
Theorem accounts_are_balanced (events : list Event) (name : str)
    (user : UserStats) :
  apply_events events ∅ !! name = Some user ->
  username user = name /\
  (0 <= streak user <= max_streak user)%Z /\
  (max_streak user <= correct_answers user <= total_questions user)%Z /\
  (11 * correct_answers user <= total_score user
   <= 20 * correct_answers user)%Z /\
  (0 <= daily_score user <= total_score user)%Z /\
  (0 <= weekly_score user <= total_score user)%Z /\
  (0 <= monthly_score user <= total_score user)%Z.
Proof.
  intros Hlook.
  assert (Hinv : all_balanced (apply_events events ∅)).
  { apply all_balanced_events. intros n u Hn.
    rewrite lookup_empty in Hn. discriminate. }
  apply (Hinv _ _ Hlook).
Qed.

Lemma accounts_are_balanced_witness :
  exists user,
    apply_events
      [Played (mkUpdate (py "ann") true 3 3); DailyReset;
       Played (mkUpdate (py "ann") true 12 64); WeeklyReset;
       Played (mkUpdate (py "ann") false 40 140)] ∅ !! py "ann" = Some user /\
    total_score user = 35%Z /\ daily_score user = 15%Z /\
    weekly_score user = 0%Z /\
    (11 * correct_answers user <= total_score user
     <= 20 * correct_answers user)%Z.
Proof.
  pose (events :=
    [Played (mkUpdate (py "ann") true 3 3); DailyReset;
     Played (mkUpdate (py "ann") true 12 64); WeeklyReset;
     Played (mkUpdate (py "ann") false 40 140)]).
  assert (Hlook : apply_events events ∅ !! py "ann"
                  = Some (mkUserStats (py "ann") 35 2 3 0 2 (Some 140%Q)
                                      15 0 35))
    by (vm_compute; reflexivity).
  eexists. split; [exact Hlook|].
  split; [reflexivity|]. split; [reflexivity|]. split; [reflexivity|].
  apply (accounts_are_balanced events (py "ann") _ Hlook).
Defined.

Lemma answers_of_nonneg (correct_only : bool) (name : str)
    (events : list Event) :
  (0 <= answers_of correct_only name events)%Z.
Proof.
  induction events as [|[u | | |] events IH]; simpl; try lia.
  destruct (bool_decide (who u = name) && (won u || negb correct_only)); lia.
Qed.

Lemma counters_event (e : Event) (stats : gmap str UserStats) (name : str) :
  questions_of (apply_event stats e) name
  = (questions_of stats name + answers_of false name [e])%Z /\
  correct_of (apply_event stats e) name
  = (correct_of stats name + answers_of true name [e])%Z /\
  (is_Some (apply_event stats e !! name) <->
   is_Some (stats !! name) \/ (0 < answers_of false name [e])%Z).
Proof.
  unfold questions_of, correct_of.
  destruct e as [u | | |]; simpl.
  - unfold apply_update. case_bool_decide as Hwho.
    + subst name.
      destruct (update_user_stats_fields (who u) (won u) (after u)
                  (at_time u) stats)
        as (user & Hl & _ & Hq & _ & _ & _ & Hc & _).
      rewrite Hl. simpl. rewrite Hq, Hc. unfold stats_before.
      destruct (stats !! who u) as [old|]; simpl;
        (split; [destruct (won u); simpl; lia|]);
        (split; [destruct (won u); simpl; lia|]);
        (split; [intros _ | intros _; eauto]); [now left | right].
      rewrite orb_true_r. simpl. lia.
    + rewrite update_user_stats_other by assumption. simpl.
      split; [lia|]. split; [lia|]. split; [now left|].
      intros [H | H]; [exact H | lia].
  - unfold reset_daily_stats. rewrite lookup_fmap.
    destruct (stats !! name); simpl;
      (split; [lia|]); (split; [lia|]); split;
      solve [ intros _; left; eauto | intros _; eauto
            | intros [? ?]; discriminate
            | intros [[? ?] | ?]; [discriminate | lia] ].
  - unfold reset_weekly_stats. rewrite lookup_fmap.
    destruct (stats !! name); simpl;
      (split; [lia|]); (split; [lia|]); split;
      solve [ intros _; left; eauto | intros _; eauto
            | intros [? ?]; discriminate
            | intros [[? ?] | ?]; [discriminate | lia] ].
  - unfold reset_monthly_stats. rewrite lookup_fmap.
    destruct (stats !! name); simpl;
      (split; [lia|]); (split; [lia|]); split;
      solve [ intros _; left; eauto | intros _; eauto
            | intros [? ?]; discriminate
            | intros [[? ?] | ?]; [discriminate | lia] ].
Qed.

Lemma answers_of_cons (correct_only : bool) (name : str) (e : Event)
    (events : list Event) :
  answers_of correct_only name (e :: events)
  = (answers_of correct_only name [e]
     + answers_of correct_only name events)%Z.
Proof. destruct e; simpl; lia. Qed.

Lemma counters_events (events : list Event) (stats : gmap str UserStats)
    (name : str) :
  questions_of (apply_events events stats) name
  = (questions_of stats name + answers_of false name events)%Z /\
  correct_of (apply_events events stats) name
  = (correct_of stats name + answers_of true name events)%Z /\
  (is_Some (apply_events events stats !! name) <->
   is_Some (stats !! name) \/ (0 < answers_of false name events)%Z).
Proof.
  revert stats. induction events as [|e events IH]; intros stats.
  - simpl. split; [lia|]. split; [lia|]. split; [now left|].
    intros [H | H]; [exact H | lia].
  - change (apply_events (e :: events) stats)
      with (apply_events events (apply_event stats e)).
    destruct (IH (apply_event stats e)) as (Hq & Hc & Hs).
    destruct (counters_event e stats name) as (Hq1 & Hc1 & Hs1).
    rewrite (answers_of_cons false), (answers_of_cons true).
    pose proof (answers_of_nonneg false name [e]).
    pose proof (answers_of_nonneg false name events).
    split; [lia|]. split; [lia|]. rewrite Hs, Hs1. split.
    + intros [[H1 | H1] | H1]; [now left | right; lia | right; lia].
    + intros [H1 | H1]; [left; now left|].
      destruct (decide (0 < answers_of false name [e])%Z);
        [left; now right | right; lia].
Qed.

(** X12. Starting without players, whatever the answers and resets, a
    player is on record exactly when the player has answered at least
    once; the record then counts the player's answers in [total_questions]
    and the correct ones in [correct_answers], and no reset touches these
    counters. *)
Theorem counters_count_answers (events : list Event) (name : str) :
  match apply_events events ∅ !! name with
  | Some user =>
      total_questions user = answers_of false name events /\
      correct_answers user = answers_of true name events /\
      (0 < answers_of false name events)%Z
  | None => answers_of false name events = 0%Z
  end.
Proof.
  destruct (counters_events events ∅ name) as (Hq & Hc & Hs).
  unfold questions_of, correct_of in Hq, Hc.
  rewrite lookup_empty in Hq, Hc, Hs. simpl in Hq, Hc.
  pose proof (answers_of_nonneg false name events) as Hnn.
  destruct (apply_events events ∅ !! name) as [user|]; simpl in Hq, Hc.
  - split; [lia|]. split; [lia|].
    destruct Hs as [Hs _]. destruct Hs as [[? H] | H]; eauto. discriminate.
  - destruct Hs as [_ Hs].
    destruct (decide (0 < answers_of false name events)%Z) as [Hpos|]; [|lia].
    destruct Hs as [? H]; [now right | discriminate].
Qed.

(** ** The main loop *)

Section MainLoop.
Context {L : PyLib} {C : Calendar}.
Variable me : str.

(** The resets touch the statistics only. *)
Lemma resets_bot (t : Tick) (s : Loop) :
  exists stats, bot (resets t s) = with_user_stats stats (bot s).
Proof.
  unfold resets.
  repeat match goal with
  | |- context [if ?b then _ else _] => destruct b
  end; cbn [bot last_daily_reset last_weekly_reset last_monthly_reset];
    try (eexists; reflexivity).
  exists (user_stats (bot s)). now destruct (bot s).
Qed.

Lemma play_not_waiting (t : Tick) (st : Bot) :
  waiting_for_answer st = false -> play me t st = st.
Proof.
  intros Hw. unfold play. rewrite Hw. now destruct (current_question st).
Qed.

Lemma turn_not_waiting (s : Loop) (t : Tick) :
  waiting_for_answer (bot s) = false ->
  exists stats, bot (turn me s t) = with_user_stats stats (bot s).
Proof.
  intros Hw. unfold turn. cbn [bot].
  destruct (resets_bot t s) as [stats Hb]. exists stats.
  rewrite play_not_waiting; rewrite Hb; [reflexivity | exact Hw].
Qed.



Lemma try_post_question_user_stats (posted : option (N * str)) (now : Q)
    (st : Bot) :
  user_stats (try_post_question posted now st) = user_stats st.
Proof. now destruct posted as [[submission answer]|]. Qed.


Lemma play_outbox (t : Tick) (st : Bot) :
  outbox (play me t st) = outbox st \/
  exists cel, outbox (play me t st) = outbox st ++ [cel].
Proof.
  assert (Hpost : forall st', outbox (try_post_question (posted t)
                                        (posted_at t) st') = outbox st').
  { intros st'. unfold try_post_question.
    now destruct (posted t) as [[? ?]|]. }
  unfold play. destruct (current_question st) eqn:Hcq; [|now left].
  destruct (waiting_for_answer st) eqn:Hw; [|now left].
  destruct (Qle_bool 45 (checked_at t - question_start_time st)).
  - left. unfold handle_timeout. cbv zeta.
    cbn [with_user_stats outbox]. now rewrite Hpost.
  - assert (Hmon :
      outbox (monitor_comments me (comments t) st) = outbox st \/
      exists cel, outbox (monitor_comments me (comments t) st)
                  = outbox st ++ [cel]).
    { unfold monitor_comments. rewrite Hcq, Hw. simpl.
      destruct (process_comments_adds me (comments t) st)
        as (_ & _ & [[Ho _] | (cel & Ho & _)] & _);
        [now left | right; now exists cel]. }
    destruct (negb _); [now rewrite Hpost | exact Hmon].
Qed.

End MainLoop.

(** X13. A bot that is not waiting for an answer never posts again,
    whatever the turns of the main loop bring: it stays without an open
    round, and its question, its stored answers, its handled comments and
    its celebrations stay as they are. A timeout after which posting the
    next question fails leaves the bot in that state. *)
Theorem stalled_bot_never_posts `{L : PyLib} `{C : Calendar} (me : str) :
  (forall (ticks : list Tick) (s : Loop),
     waiting_for_answer (bot s) = false ->
     waiting_for_answer (bot (run_turns me ticks s)) = false /\
     current_question (bot (run_turns me ticks s)) = current_question (bot s)
     /\ question_answers (bot (run_turns me ticks s))
        = question_answers (bot s) /\
     processed_comments (bot (run_turns me ticks s))
     = processed_comments (bot s) /\
     outbox (bot (run_turns me ticks s)) = outbox (bot s)) /\
  (forall (t : Tick) (s : Loop),
     round_open (bot s) ->
     (45 <= checked_at t - question_start_time (bot s))%Q ->
     posted t = None ->
     waiting_for_answer (bot (turn me s t)) = false).
Proof.
  split.
  - intros ticks. induction ticks as [|t ticks IH]; intros s Hw.
    + now repeat split.
    + change (run_turns me (t :: ticks) s)
        with (run_turns me ticks (turn me s t)).
      destruct (turn_not_waiting me s t Hw) as [stats Hb].
      destruct (IH (turn me s t)) as (H1 & H2 & H3 & H4 & H5).
      { now rewrite Hb. }
      rewrite H1, H2, H3, H4, H5, Hb. now repeat split.
  - intros t s [Hq Hw] Hlate Hposted. unfold turn. cbn [bot].
    destruct (resets_bot t s) as [stats Hb]. rewrite Hb.
    unfold play. cbn [with_user_stats current_question waiting_for_answer
                      question_start_time].
    destruct (current_question (bot s)); [|congruence]. rewrite Hw.
    apply Qle_bool_iff in Hlate. rewrite Hlate.
    unfold handle_timeout. now rewrite Hposted.
Qed.

Lemma stalled_bot_never_posts_witness :
  let cal := Clock.even in
  let s := mkLoop Paris.start 0 0 0 in
  let late := mkTick 50 50 [Paris.bob] None 60 in
  let later := mkTick 70 70 [Paris.bob; Paris.carol]
                 (Some (2%N, py "Mars")) 80 in
  waiting_for_answer
    (bot (run_turns (L := Ascii.lib) (C := cal) Paris.me [later; later]
            (turn (L := Ascii.lib) (C := cal) Paris.me s late))) = false.
Proof.
  intros cal s late later.
  destruct (stalled_bot_never_posts (L := Ascii.lib) (C := cal) Paris.me)
    as [Hstay Hstall].
  apply Hstay. apply Hstall.
  - split; [discriminate | reflexivity].
  - vm_compute. discriminate.
  - reflexivity.
Defined.



(** X15. A turn of the main loop posts at most one celebration. A turn
    that finds an open round 45 seconds old or older celebrates nobody,
    reads no comment and credits nobody, whatever the comments say; it
    closes the round and, when posting succeeds, opens the next one with no
    stored answer. What it does to the statistics is a monthly reset,
    whatever the month: every player on record is left with a monthly score
    of 0, and with everything else as the resets at the head of the turn
    left it. *)
Theorem timeout_turn `{L : PyLib} `{C : Calendar} (me : str) (s : Loop)
    (t : Tick) :
  (outbox (bot (turn me s t)) = outbox (bot s) \/
   exists cel, outbox (bot (turn me s t)) = outbox (bot s) ++ [cel]) /\
  (round_open (bot s) ->
   (45 <= checked_at t - question_start_time (bot s))%Q ->
   outbox (bot (turn me s t)) = outbox (bot s) /\
   processed_comments (bot (turn me s t)) = processed_comments (bot s) /\
   user_stats (bot (turn me s t))
   = reset_monthly_stats (user_stats (bot (resets t s))) /\
   (forall name user,
      user_stats (bot (turn me s t)) !! name = Some user ->
      monthly_score user = 0%Z) /\
   match posted t with
   | Some (submission, answer) =>
       current_question (bot (turn me s t)) = Some submission /\
       current_answer (bot (turn me s t)) = answer /\
       question_start_time (bot (turn me s t)) = posted_at t /\
       waiting_for_answer (bot (turn me s t)) = true /\
       question_answers (bot (turn me s t)) = []
   | None =>
       waiting_for_answer (bot (turn me s t)) = false /\
       current_question (bot (turn me s t)) = current_question (bot s) /\
       question_answers (bot (turn me s t)) = question_answers (bot s)
   end).
Proof.
  destruct (resets_bot t s) as [stats Hb]. split.
  - unfold turn. cbn [bot].
    destruct (play_outbox me t (bot (resets t s))) as [Ho | [cel Ho]];
      rewrite Ho, Hb; [now left | right; now exists cel].
  - intros [Hq Hw] Hlate.
    assert (Hplay : play me t (bot (resets t s))
                    = handle_timeout (posted t) (posted_at t)
                        (bot (resets t s))).
    { rewrite Hb. unfold play.
      cbn [with_user_stats current_question waiting_for_answer
           question_start_time].
      destruct (current_question (bot s)) eqn:Hcq; [|congruence].
      rewrite Hw. apply Qle_bool_iff in Hlate. now rewrite Hlate. }
    assert (Hstats : user_stats (bot (turn me s t))
                     = reset_monthly_stats (user_stats (bot (resets t s)))).
    { unfold turn. cbn [bot]. rewrite Hplay. unfold handle_timeout.
      cbv zeta. cbn [with_user_stats user_stats].
      now rewrite try_post_question_user_stats. }
    split; [|split; [|split; [exact Hstats|split]]].
    + unfold turn. cbn [bot]. rewrite Hplay, Hb. unfold handle_timeout.
      now destruct (posted t) as [[submission answer]|].
    + unfold turn. cbn [bot]. rewrite Hplay, Hb. unfold handle_timeout.
      now destruct (posted t) as [[submission answer]|].
    + intros name user. rewrite Hstats. unfold reset_monthly_stats.
      rewrite lookup_fmap. destruct (_ !! name); [|discriminate].
      now intros [= <-].
    + unfold turn. cbn [bot]. rewrite Hplay, Hb. unfold handle_timeout.
      destruct (posted t) as [[submission answer]|]; now repeat split.
Qed.

(** A round that bob wins in 4 seconds, then a round that times out in the
    same month: bob's 20 points of the month are gone, his total is not. *)
Lemma timeout_turn_witness :
  let cal := Clock.even in
  let won := mkTick 4 4 [Paris.alice; Paris.bob] (Some (2%N, py "Mars")) 14 in
  let late := mkTick 70 70 [Paris.carol] (Some (3%N, py "Rome")) 80 in
  let s := turn (L := Ascii.lib) (C := cal) Paris.me
             (mkLoop Paris.start 0 0 0) won in
  (monthly_score <$> user_stats (bot s) !! py "bob" = Some 20%Z) /\
  (monthly_score <$>
     user_stats (bot (turn (L := Ascii.lib) (C := cal) Paris.me s late))
     !! py "bob" = Some 0%Z) /\
  (total_score <$>
     user_stats (bot (turn (L := Ascii.lib) (C := cal) Paris.me s late))
     !! py "bob" = Some 20%Z) /\
  outbox (bot (turn (L := Ascii.lib) (C := cal) Paris.me s late))
  = outbox (bot s) /\
  current_answer (bot (turn (L := Ascii.lib) (C := cal) Paris.me s late))
  = py "Rome".
Proof.
  intros cal won late s.
  destruct (timeout_turn (L := Ascii.lib) (C := cal) Paris.me s late)
    as [_ Hlate].
  destruct Hlate as (Hout & _ & Hstats & _ & Hnext).
  - split; vm_compute; [discriminate | reflexivity].
  - vm_compute. discriminate.
  - split; [vm_compute; reflexivity|].
    split; [rewrite Hstats; vm_compute; reflexivity|].
    split; [rewrite Hstats; vm_compute; reflexivity|].
    split; [exact Hout | apply Hnext].
Defined.

(** ** The leaderboard *)

Import Board.

Lemma rank_le_at_least (x y : UserStats) :
  rank_le y x = true <-> at_least x y.
Proof.
  unfold rank_le, at_least.
  rewrite orb_true_iff, andb_true_iff, Z.ltb_lt, Z.eqb_eq, Z.leb_le.
  reflexivity.
Qed.

Lemma at_least_total (x y : UserStats) :
  rank_le y x = false -> at_least y x.
Proof.
  unfold rank_le, at_least. intros H.
  apply orb_false_iff in H as [H1 H2]. apply Z.ltb_ge in H1.
  apply andb_false_iff in H2 as [H2 | H2].
  - apply Z.eqb_neq in H2. lia.
  - apply Z.leb_gt in H2. lia.
Qed.

Lemma at_least_trans (x y z : UserStats) :
  at_least x y -> at_least y z -> at_least x z.
Proof. unfold at_least. lia. Qed.

Lemma insert_by_rank_perm (x : UserStats) (l : list UserStats) :
  Permutation (insert_by_rank x l) (x :: l).
Proof.
  induction l as [|y l IH]; simpl; [reflexivity|].
  destruct (rank_le y x); [reflexivity|]. rewrite IH. apply perm_swap.
Qed.

Lemma sort_by_rank_perm (l : list UserStats) :
  Permutation (sort_by_rank l) l.
Proof.
  induction l as [|x l IH]; simpl; [reflexivity|].
  rewrite insert_by_rank_perm. now constructor.
Qed.

Lemma insert_by_rank_sorted (x : UserStats) (l : list UserStats) :
  StronglySorted at_least l -> StronglySorted at_least (insert_by_rank x l).
Proof.
  intros Hl. induction Hl as [|y l Hl IH Hy]; simpl.
  - constructor; constructor.
  - destruct (rank_le y x) eqn:Hle.
    + apply rank_le_at_least in Hle. constructor; [now constructor|].
      constructor; [exact Hle|].
      eapply Forall_impl; [exact Hy|].
      intros z Hz. now apply at_least_trans with y.
    + constructor; [exact IH|].
      apply (Permutation_Forall (Permutation_sym (insert_by_rank_perm x l))).
      constructor; [now apply at_least_total | exact Hy].
Qed.

Lemma sort_by_rank_sorted (l : list UserStats) :
  StronglySorted at_least (sort_by_rank l).
Proof.
  induction l as [|x l IH]; simpl; [constructor|].
  now apply insert_by_rank_sorted.
Qed.

Lemma StronglySorted_app_between (l1 l2 : list UserStats) :
  StronglySorted at_least (l1 ++ l2) ->
  StronglySorted at_least l1 /\
  forall x y, In x l1 -> In y l2 -> at_least x y.
Proof.
  induction l1 as [|z l1 IH]; simpl; intros Hs.
  - split; [constructor | intros x y []].
  - inversion Hs as [|? ? Hs' Hall]; subst.
    destruct (IH Hs') as [Hl1 Hbetween].
    apply Forall_app in Hall as [Hall1 Hall2]. split.
    + now constructor.
    + intros x y [<- | Hx] Hy; [|now apply Hbetween].
      rewrite List.Forall_forall in Hall2. now apply Hall2.
Qed.

(** X16. The leaderboard lists [limit] players, or all of them when there
    are fewer, each of them on record; it lists them from the highest
    downwards, by score and, for equal scores, by longest streak; and no
    player left out stands higher than a player listed. *)
Theorem leaderboard_is_ranked (values : list UserStats) (limit : nat) :
  length (get_top_players values limit) = Nat.min limit (length values) /\
  StronglySorted at_least (get_top_players values limit) /\
  exists rest,
    Permutation values (get_top_players values limit ++ rest) /\
    forall x y, In x (get_top_players values limit) -> In y rest ->
                at_least x y.
Proof.
  unfold get_top_players.
  pose proof (sort_by_rank_perm values) as Hperm.
  pose proof (sort_by_rank_sorted values) as Hsorted.
  rewrite <- (firstn_skipn limit (sort_by_rank values)) in Hsorted.
  apply StronglySorted_app_between in Hsorted as [Htop Hbetween].
  split; [|split; [exact Htop|]].
  - rewrite length_firstn, (Permutation_length Hperm). reflexivity.
  - exists (skipn limit (sort_by_rank values)).
    split; [|exact Hbetween].
    rewrite firstn_skipn. now apply Permutation_sym.
Qed.

(** ** Comments that do not count, and answers that lose *)

Import Ignored.

Section Counting.
Context {L : PyLib}.
Variable me : str.

Lemma handle_comment_not_counted (c : Comment) (st : Bot) :
  not_counted me st c ->
  exists st',
    handle_comment me c st = (st', false) /\
    current_question st' = current_question st /\
    current_answer st' = current_answer st /\
    question_start_time st' = question_start_time st /\
    waiting_for_answer st' = waiting_for_answer st /\
    user_stats st' = user_stats st /\
    question_answers st' = question_answers st /\
    outbox st' = outbox st /\
    processed_comments st ⊆ processed_comments st'.
Proof.
  intros Hn. unfold handle_comment.
  case_bool_decide as Hseen.
  { eexists. split; [reflexivity|]. now repeat split. }
  case_bool_decide as Hown.
  { eexists. split; [reflexivity|]. simpl. repeat split; try reflexivity.
    apply union_subseteq_r. }
  destruct Hn; contradiction.
Qed.

Lemma process_comments_not_counted (cs : list Comment) (st : Bot) :
  Forall (not_counted me st) cs ->
  current_question (process_comments me cs st) = current_question st /\
  current_answer (process_comments me cs st) = current_answer st /\
  question_start_time (process_comments me cs st) = question_start_time st /\
  waiting_for_answer (process_comments me cs st) = waiting_for_answer st /\
  user_stats (process_comments me cs st) = user_stats st /\
  question_answers (process_comments me cs st) = question_answers st /\
  outbox (process_comments me cs st) = outbox st.
Proof.
  revert st. induction cs as [|c cs IH]; intros st Hall; [now repeat split|].
  inversion Hall as [|? ? Hc Hrest]; subst.
  destruct (handle_comment_not_counted c st Hc)
    as (st1 & Hh & H1 & H2 & H3 & H4 & H5 & H6 & H7 & Hsub).
  simpl. rewrite Hh.
  destruct (IH st1) as (G1 & G2 & G3 & G4 & G5 & G6 & G7).
  { eapply Forall_impl; [exact Hrest|].
    intros d [Hd | Hd]; [left; now apply Hsub | now right]. }
  repeat split; congruence.
Qed.


End Counting.

(** X17. Comments that were handled before and comments of the bot's own
    account do not count: a call of [monitor_comments] on such comments
    alone credits and charges nobody, stores no answer, posts nothing and
    leaves the round as it is. *)
Theorem uncounted_comments_change_nothing `{L : PyLib} (me : str)
    (comments : list Comment) (st : Bot) :
  Forall (not_counted me st) comments ->
  current_question (monitor_comments me comments st) = current_question st /\
  current_answer (monitor_comments me comments st) = current_answer st /\
  question_start_time (monitor_comments me comments st)
  = question_start_time st /\
  waiting_for_answer (monitor_comments me comments st)
  = waiting_for_answer st /\
  user_stats (monitor_comments me comments st) = user_stats st /\
  question_answers (monitor_comments me comments st) = question_answers st /\
  outbox (monitor_comments me comments st) = outbox st.
Proof.
  intros Hall. unfold monitor_comments.
  destruct (current_question st) eqn:Hq; [|rewrite ?Hq; now repeat split].
  destruct (waiting_for_answer st) eqn:Hw; simpl;
    [|rewrite ?Hq, ?Hw; now repeat split].
  destruct (process_comments_not_counted me comments st Hall)
    as (G1 & G2 & G3 & G4 & G5 & G6 & G7).
  rewrite G1, G2, G3, G4, G5, G6, G7, Hq, Hw. now repeat split.
Qed.

Lemma uncounted_comments_change_nothing_witness :
  user_stats (monitor_comments (L := Ascii.lib) Paris.me
                [Paris.own; Paris.own] Paris.start) = ∅ /\
  waiting_for_answer (monitor_comments (L := Ascii.lib) Paris.me
                        [Paris.own; Paris.own] Paris.start) = true.
Proof.
  destruct (uncounted_comments_change_nothing (L := Ascii.lib) Paris.me
              [Paris.own; Paris.own] Paris.start)
    as (_ & _ & _ & Hw & Hstats & _).
  - constructor; [now right|]. constructor; [now right | constructor].
  - split; [exact Hstats | exact Hw].
Defined.



(** X19. Every abbreviation and every Roman numeral of the two tables is an
    exact match for what it stands for, whichever of the two is the answer
    and whichever the reference; the one exception is dc, which is a
    [contains] match for washington dc, because what it stands for holds
    it again. *)
Theorem table_entries_are_accepted :
  Forall (fun entry =>
            entry_verdicts entry
            = if bool_decide (fst entry = py "dc")
              then (contains, contains) else (exact, exact))
         (abbreviations ++ roman_numerals).
Proof.
  unfold abbreviations, roman_numerals. cbn [app].
  repeat (constructor; [vm_compute; reflexivity|]). constructor.
Qed.

Lemma leaderboard_is_ranked_witness :
  let ann := mkUserStats (py "ann") 35 2 3 0 2 None 35 35 35 in
  let bob := mkUserStats (py "bob") 40 2 2 2 2 None 40 40 40 in
  let cid := mkUserStats (py "cid") 35 2 5 1 1 None 35 35 35 in
  let dan := mkUserStats (py "dan") 11 1 4 0 1 None 11 11 11 in
  get_top_players [ann; bob; cid; dan] 3 = [bob; ann; cid] /\
  length (get_top_players [ann; bob; cid; dan] 3) = 3%nat /\
  StronglySorted at_least (get_top_players [ann; bob; cid; dan] 3).
Proof.
  intros ann bob cid dan. split; [reflexivity|].
  destruct (leaderboard_is_ranked [ann; bob; cid; dan] 3) as (Hlen & Hs & _).
  split; [exact Hlen | exact Hs].
Defined.
